(** * xmltextnorm: a shallow embedding of [xmltextnorm.py]

    The program extracts the text of an XML document, normalises its
    white space, breaks it after punctuation and wraps long lines.
    Python [unicode] strings are lists of code points; the two [while]
    loops of the source are defined by well-founded recursion on the
    length of the string they shorten. *)

From Stdlib Require Import ZArith String Ascii.
From stdpp Require Import gmap strings list fin_maps.
From Equations Require Import Equations.

Set Warnings "-register-all".
Open Scope Z_scope.

(** ** Unicode strings *)

(** A character is its code point; a string is the list of its
    characters. *)
Abbreviation uchar := N (only parsing).
Abbreviation ustring := (list N) (only parsing).

(** [u "abc"] is the Python literal [u'abc'] (ASCII only). *)
Definition u (s : string) : ustring :=
  map N_of_ascii (list_ascii_of_string s).

Definition sp : uchar := 32%N.
Definition nl : uchar := 10%N.
Definition tab : uchar := 9%N.

Module Str.

(** [s.startswith(p)] *)
Fixpoint startswith (s p : ustring) {struct p} : bool :=
  match p, s with
  | [], _ => true
  | _ :: _, [] => false
  | b :: p', a :: s' => if decide (a = b) then startswith s' p' else false
  end.

(** [s.find(sub)]: the lowest index at which [sub] occurs, [-1] if none. *)
Fixpoint find (s sub : ustring) : Z :=
  if startswith s sub then 0
  else match s with
       | [] => -1
       | _ :: s' => let r := find s' sub in if r <? 0 then -1 else 1 + r
       end.

(** [sub in s] *)
Definition contains (sub s : ustring) : bool := 0 <=? find s sub.

(** [s.replace(old, new)] for a non-empty [old]: matches are taken from
    left to right and do not overlap.  [skip] counts the characters of
    a match that remain to be passed over. *)
Fixpoint replace_from (skip : nat) (s old new : ustring) : ustring :=
  match s with
  | [] => []
  | c :: s' =>
      match skip with
      | S k => replace_from k s' old new
      | O => if startswith s old
             then new ++ replace_from (length old - 1) s' old new
             else c :: replace_from 0 s' old new
      end
  end.

Definition replace (s old new : ustring) : ustring := replace_from 0 s old new.

(** [sep.join(parts)] *)
Fixpoint join (sep : ustring) (parts : list ustring) : ustring :=
  match parts with
  | [] => []
  | [p] => p
  | p :: rest => p ++ sep ++ join sep rest
  end.

(** [s.split(sep)] for a one-character separator: the fields between
    the occurrences of [sep]; always at least one field. *)
Fixpoint split (sep : uchar) (s : ustring) : list ustring :=
  match s with
  | [] => [[]]
  | c :: s' =>
      if decide (c = sep) then [] :: split sep s'
      else match split sep s' with
           | [] => [[c]]
           | f :: fs => (c :: f) :: fs
           end
  end.

(** Slices [s[:n]] and [s[n:]] for an index [n >= 0]. *)
Definition upto (n : Z) (s : ustring) : ustring := take (Z.to_nat n) s.
Definition from (n : Z) (s : ustring) : ustring := drop (Z.to_nat n) s.

Definition len (s : ustring) : Z := Z.of_nat (length s).

End Str.

(** Termination of the white-space loop rests on [replace] shortening a
    string in which [old] occurs, when [new] is shorter than [old]. *)
Section ReplaceLength.

Lemma startswith_length (s p : ustring) :
  Str.startswith s p = true → (length p ≤ length s)%nat.
Proof.
  revert s. induction p as [| b p IH]; intros [| a s]; simpl; try lia; try done.
  destruct (decide (a = b)); [| done]. intros H. apply IH in H. lia.
Qed.

Lemma replace_from_drop (k : nat) (s old new : ustring) :
  Str.replace_from k s old new = Str.replace_from 0 (drop k s) old new.
Proof.
  revert k. induction s as [| c s IH]; intros [| k]; try reflexivity.
  simpl. apply IH.
Qed.

Lemma replace_cons (c : uchar) (s old new : ustring) :
  Str.replace (c :: s) old new =
  if Str.startswith (c :: s) old
  then new ++ Str.replace (drop (length old - 1) s) old new
  else c :: Str.replace s old new.
Proof.
  unfold Str.replace. cbn [Str.replace_from].
  destruct (Str.startswith (c :: s) old); [| reflexivity].
  by rewrite replace_from_drop.
Qed.

Lemma find_cons (c : uchar) (s sub : ustring) :
  Str.find (c :: s) sub =
  if Str.startswith (c :: s) sub then 0
  else if Str.find s sub <? 0 then -1 else 1 + Str.find s sub.
Proof. reflexivity. Qed.

Lemma find_lower (s sub : ustring) : -1 ≤ Str.find s sub.
Proof.
  induction s as [| c s IH].
  - destruct sub; simpl; lia.
  - rewrite find_cons. destruct (Str.startswith _ _); [lia |].
    destruct (Z.ltb_spec (Str.find s sub) 0); lia.
Qed.

Variables old new : ustring.
Hypothesis new_shorter : (length new < length old)%nat.

Lemma replace_length_le (n : nat) (s : ustring) :
  (length s ≤ n)%nat →
  (length (Str.replace s old new) ≤ length s)%nat ∧
  (Str.contains old s = true →
   length (Str.replace s old new) < length s)%nat.
Proof.
  revert s. induction n as [| n IH]; intros s Hn.
  - destruct s; [| simpl in Hn; lia]. split; [done |].
    unfold Str.contains. pose proof new_shorter as Hlen.
    destruct old; [simpl in Hlen; lia | simpl; done].
  - destruct s as [| c s]; [apply IH; simpl; lia |].
    simpl in Hn. rewrite replace_cons. unfold Str.contains. rewrite find_cons.
    destruct (Str.startswith (c :: s) old) eqn:Hsw.
    + apply startswith_length in Hsw. simpl in Hsw.
      destruct (IH (drop (length old - 1) s)) as [Hle _].
      { rewrite length_drop. lia. }
      rewrite length_app, length_drop in *. simpl. lia.
    + destruct (IH s) as [Hle Hlt]; [lia |]. unfold Str.contains in Hlt.
      simpl. split; [lia |].
      destruct (Z.ltb_spec (Str.find s old) 0); [done |].
      intros _. apply Nat.succ_lt_mono in Hlt; [done |].
      apply Z.leb_le. lia.
Qed.

Lemma replace_shorter (s : ustring) :
  Str.contains old s = true →
  (length (Str.replace s old new) < length s)%nat.
Proof. apply (replace_length_le (length s) s). done. Qed.

End ReplaceLength.

(** ** [splitline] *)

(** One pass through the body of [while L:] in [splitline]; the state is
    the pair of the remaining text [L] and the list [out]. The unused
    [words = L.split(u' ')] has no effect and is left out. *)
Definition splitline_body (L : ustring) (out : list ustring)
  : ustring * list ustring :=
  if Str.len L <? 72 then ([], out ++ [L])
  else
    let sPos := Str.find (Str.from 60 L) (u " ") in
    if 0 <=? sPos
    then (Str.from (60 + sPos + 1) L, out ++ [Str.upto (60 + sPos) L])
    else ([], out ++ [L]).

Lemma splitline_body_shorter (L : ustring) (out : list ustring) :
  L ≠ [] → (length (splitline_body L out).1 < length L)%nat.
Proof.
  intros HL. unfold splitline_body.
  assert (0 < length L)%nat by (destruct L; [done | simpl; lia]).
  destruct (Str.len L <? 72); [simpl; lia |].
  destruct (0 <=? _) eqn:Hs; [| simpl; lia].
  apply Z.leb_le in Hs. unfold Str.from in *. cbn [fst].
  rewrite length_drop. lia.
Qed.

Equations? splitline_loop (L : ustring) (out : list ustring)
  : list ustring by wf (length L) lt :=
  splitline_loop [] out := out;
  splitline_loop (c :: L') out :=
    splitline_loop (splitline_body (c :: L') out).1
                   (splitline_body (c :: L') out).2.
Proof. apply (splitline_body_shorter (c :: L') out). done. Qed.

Definition splitline (line : ustring) : list ustring := splitline_loop line [].

(** ** The parser and its entity table *)

(** The literal of the source is three characters long under the
    declared [utf-8] coding: U+00E2, U+20AC, U+201D. *)
Definition ENTITIES : gmap ustring ustring :=
  <[u "mdash" := [0xE2; 0x20AC; 0x201D]%N]> (<[u "hellip" := u "..."]> ∅).

(** The two attributes of ElementTree's [XMLParser] that [makeparser]
    touches: the [entity] dictionary, empty in a new parser, and the
    foreign-DTD switch of the underlying expat parser. *)
Record XMLParser := {
  entity : gmap ustring ustring;
  foreign_dtd : bool
}.

Definition XMLParser_new : XMLParser := {| entity := ∅; foreign_dtd := false |}.

Definition UseForeignDTD (flag : bool) (p : XMLParser) : XMLParser :=
  {| entity := entity p; foreign_dtd := flag |}.

Definition set_entity (k v : ustring) (p : XMLParser) : XMLParser :=
  {| entity := <[k := v]> (entity p); foreign_dtd := foreign_dtd p |}.

Definition makeparser : XMLParser :=
  let parser := XMLParser_new in
  let parser := UseForeignDTD true parser in
  map_fold set_entity parser ENTITIES.

(** ** The element tree and its flattening *)

Inductive Element := Elem {
  tag : ustring;
  text : option ustring;
  tail : option ustring;
  children : list Element
}.

(** [Element.iter(tag)]: the element itself, if it passes the tag
    filter, then the elements of each child's subtree in turn. *)
Fixpoint iter (t : ustring) (e : Element) : list Element :=
  match e with
  | Elem tg _ _ cs =>
      let t' := if decide (t = u "*") then None else Some t in
      let rest := flat_map (iter t) cs in
      match t' with
      | None => e :: rest
      | Some t0 => if decide (tg = t0) then e :: rest else rest
      end
  end.

(** [tree.getiterator(tag)] for a tree whose root is [root]. *)
Definition getiterator (t : ustring) (root : Element) : list Element :=
  iter t root.

(** Python's [x or y] on an optional string: [None] and [u''] are false. *)
Definition por (x : option ustring) (y : ustring) : ustring :=
  match x with
  | Some (c :: s) => c :: s
  | _ => y
  end.

(** [(p.text or u'') + (p.tail or u'')] *)
Definition contribution (p : Element) : ustring :=
  por (text p) [] ++ por (tail p) [].

(** [text = u' '.join([... for p in paras])] *)
Definition flatten (root : Element) : ustring :=
  let paras := getiterator (u "*") root in
  Str.join (u " ") (map contribution paras).

(** Document order: an element comes before the elements of its
    subtrees, and these in the order of the children. *)
Fixpoint preorder (e : Element) : list Element :=
  match e with
  | Elem _ _ _ cs => e :: flat_map preorder cs
  end.

(** ** Parsing: from the document to the element tree *)

(** Character data as the parser meets it, in a document without a
    document type declaration: literal characters and references
    [&name;], to one of the five entities that expat knows by itself or
    to an entity that nothing declares. *)
Inductive piece :=
| Chars (s : ustring)
| EntityRef (name : ustring).

(** The entities [amp], [lt], [gt], [quot] and [apos], which expat
    expands without asking anyone. *)
Definition predefined (name : ustring) : option ustring :=
  if decide (name = u "amp") then Some [38%N]
  else if decide (name = u "lt") then Some [60%N]
  else if decide (name = u "gt") then Some [62%N]
  else if decide (name = u "quot") then Some [34%N]
  else if decide (name = u "apos") then Some [39%N]
  else None.

(** A reference to an undeclared entity is an error of expat itself
    ([undefined entity]) unless the foreign-DTD switch is on and the
    document is not declared [standalone="yes"]; only then is it passed
    to [XMLParser], which hands [self.entity[name]] to the tree builder
    and raises a parse error on [KeyError]. *)
Definition resolve_piece (parser : XMLParser) (standalone : bool) (x : piece)
  : option ustring :=
  match x with
  | Chars s => Some s
  | EntityRef name =>
      match predefined name with
      | Some s => Some s
      | None =>
          if foreign_dtd parser && negb standalone
          then entity parser !! name
          else None
      end
  end.

Fixpoint resolve_text (parser : XMLParser) (standalone : bool)
    (xs : list piece) : option ustring :=
  match xs with
  | [] => Some []
  | x :: xs' =>
      match resolve_piece parser standalone x,
            resolve_text parser standalone xs' with
      | Some s, Some t => Some (s ++ t)
      | _, _ => None
      end
  end.

(** An element of the document as written: the character data after
    its start tag, the character data after its end tag, and its child
    elements. *)
Inductive Node := Nd {
  ntag : ustring;
  ntext : list piece;
  ntail : list piece;
  nchildren : list Node
}.

(** A document: whether its XML declaration says [standalone="yes"],
    and its root element. *)
Record Document := {
  standalone : bool;
  root_node : Node
}.

(** The tree builder sets [text] or [tail] only when there was
    character data; otherwise the attribute stays [None]. *)
Definition resolve_data (parser : XMLParser) (sa : bool) (xs : list piece)
  : option (option ustring) :=
  match xs with
  | [] => Some None
  | _ :: _ => Some <$> resolve_text parser sa xs
  end.

(** The element tree of a node; [None] is a parse error. *)
Fixpoint parse_node (parser : XMLParser) (sa : bool) (nd : Node)
  : option Element :=
  match nd with
  | Nd tg tx tl cs =>
      match resolve_data parser sa tx,
            (fix all (l : list Node) : option (list Element) :=
               match l with
               | [] => Some []
               | c :: l' =>
                   match parse_node parser sa c, all l' with
                   | Some e, Some es => Some (e :: es)
                   | _, _ => None
                   end
               end) cs,
            resolve_data parser sa tl with
      | Some tx', Some cs', Some tl' => Some (Elem tg tx' tl' cs')
      | _, _, _ => None
      end
  end.

(** [tree.parse(inf, parser=parser)] *)
Definition parse (parser : XMLParser) (inf : Document) : option Element :=
  parse_node parser (standalone inf) (root_node inf).


(** ** White-space and sentence-break normalisation *)

Definition replace_whitespace (text : ustring) : ustring :=
  let text := Str.replace text [nl] (u " ") in
  Str.replace text [tab] (u " ").

(** [while u'  ' in text: text = text.replace(u'  ', u' ')] *)
Equations? collapse_spaces (text : ustring) : ustring by wf (length text) lt :=
  collapse_spaces text with decide (Str.contains (u "  ") text = true) := {
    | left Hin => collapse_spaces (Str.replace text (u "  ") (u " "));
    | right _ => text }.
Proof. apply replace_shorter; [simpl; lia | done]. Qed.

Definition marks : ustring := u ".,;:!?".

(** [for p in u'.,;:!?': text = text.replace(u'%s ' % p, u'%s\n' % p)] *)
Definition sentence_breaks (text : ustring) : ustring :=
  fold_left (λ text p, Str.replace text [p; sp] [p; nl]) marks text.

Definition normalize (text : ustring) : ustring :=
  sentence_breaks (collapse_spaces (replace_whitespace text)).

(** [lines = text.split(u'\n')] and the loop extending [outlines]. *)
Definition wrap_lines (text : ustring) : list ustring :=
  fold_left (λ outlines line, outlines ++ splitline line) (Str.split nl text) [].

Definition outlines_of (root : Element) : list ustring :=
  wrap_lines (normalize (flatten root)).

(** ** Output *)

(** [s.encode('UTF-8')], a byte being a number below 256. *)
Definition utf8_char (c : uchar) : list N :=
  (if c <? 0x80 then [c]
   else if c <? 0x800 then [0xC0 + c / 0x40; 0x80 + c mod 0x40]
   else if c <? 0x10000
     then [0xE0 + c / 0x1000; 0x80 + (c / 0x40) mod 0x40; 0x80 + c mod 0x40]
     else [0xF0 + c / 0x40000; 0x80 + (c / 0x1000) mod 0x40;
           0x80 + (c / 0x40) mod 0x40; 0x80 + c mod 0x40])%N.

Definition encode_utf8 (s : ustring) : list N := flat_map utf8_char s.

(** The destination [outf]: a file name, or an object with a [write]
    method. *)
Inductive outdest :=
| OutName (path : string)
| OutStream.

(** What the run leaves behind: the contents of the files it opened for
    writing and the bytes passed to the stream's [write]. *)
Record world := {
  files : gmap string (list N);
  stream : list N
}.

(** The last statement of [xmltextnorm]. [open(outf, 'w')] creates or
    truncates the file. *)
Definition write_output (outf : outdest) (outlines : list ustring) (w : world)
  : world :=
  match outf with
  | OutName path =>
      {| files := <[path := encode_utf8 (Str.join [nl] outlines)]> (files w);
         stream := stream w |}
  | OutStream =>
      {| files := files w;
         stream := stream w ++ encode_utf8 (Str.join [nl] (outlines ++ [[]])) |}
  end.

(** [xmltextnorm(inf, outf)], from the tree that [tree.parse(inf,
    parser=parser)] builds on. *)
Definition xmltextnorm (root : Element) (outf : outdest) (w : world) : world :=
  write_output outf (outlines_of root) w.

(** [xmltextnorm(inf, outf)] with its parse step; [None] is the parse
    error, which leaves nothing written. *)
Definition xmltextnorm_inf (inf : Document) (outf : outdest) (w : world)
  : option world :=
  match parse makeparser inf with
  | Some root => Some (xmltextnorm root outf w)
  | None => None
  end.

(** ** The command line *)

Inductive action :=
| RunStdio
| PrintUsage
| RunFiles (infile outfile : string).

(** Python 2 compares a list with an integer by type, never as equal:
    [sys.argv == 2] is [False] whatever the arguments. *)
Definition list_eq_int (argv : list string) (n : Z) : bool := false.

Definition help_words : list string := ["-h"; "--help"; "help"]%string.

Section Main.

(** [os.path.splitext], of the Python library. *)
Variable splitext : string → string * string.

(** The [__main__] block; [None] is the [IndexError] of [sys.argv[1]]. *)
Definition main (argv : list string) : option action :=
  if Z.of_nat (length argv) =? 1 then Some RunStdio
  else if (3 <? Z.of_nat (length argv))
          || (list_eq_int argv 2
              && match argv !! 1%nat with
                 | Some a => bool_decide (a ∈ help_words)
                 | None => false
                 end)
  then Some PrintUsage
  else
    infile ← argv !! 1%nat;
    outfile ← (if Z.of_nat (length argv) =? 3 then argv !! 2%nat
               else Some ((splitext infile).1 +:+ ".txt")%string);
    Some (RunFiles infile outfile).

End Main.

(** ** Vocabulary of the properties *)

(** [sub] occurs in [s] as a contiguous substring. *)
Definition occurs (sub s : ustring) : Prop :=
  ∃ pre post, s = pre ++ sub ++ post.

(** The characters of a sentence-break replacement, position by
    position: each is the old one, or a newline in place of a space. *)
Definition kept_or_broken (c d : uchar) : Prop := d = c ∨ (c = sp ∧ d = nl).

(** A newline at this place has a punctuation mark just before it. *)
Definition break_ok_at (prev : option uchar) (c : uchar) : Prop :=
  c = nl → ∃ m, prev = Some m ∧ m ∈ marks.

(** Every newline of [s] has a punctuation mark just before it, [prev]
    being the character before [s]. *)
Fixpoint breaks_ok (prev : option uchar) (s : ustring) : Prop :=
  match s with
  | [] => True
  | c :: s' => break_ok_at prev c ∧ breaks_ok (Some c) s'
  end.

(** The three properties of normalised text, kept by every replacement
    of the sentence-break loop. *)
Definition normal_text (t : ustring) : Prop :=
  (tab ∉ t) ∧ ¬ occurs [sp; sp] t ∧ breaks_ok None t.

(** The text after the two white-space steps, before the sentence
    breaks are put in. *)
Definition single_spaced (text : ustring) : ustring :=
  collapse_spaces (replace_whitespace text).

(** The bound on output lines in the words of the specification, for a
    wrap width [W]: the line is shorter than [W], or it reaches [W]
    only because no space occurs in it before the width boundary. *)
Definition within_budget (W : nat) (l : ustring) : Prop :=
  (length l < W)%nat ∨ sp ∉ take W l.

Section ElementInduction.

Variable P : Element → Prop.
Hypothesis step :
  ∀ tg tx tl cs, Forall P cs → P (Elem tg tx tl cs).

(** Induction over an element with the property known for all its
    children. *)
Fixpoint Element_children_ind (e : Element) : P e :=
  match e with
  | Elem tg tx tl cs =>
      step tg tx tl cs
        ((fix all (l : list Element) : Forall P l :=
            match l with
            | [] => List.Forall_nil P
            | c :: l' =>
                List.Forall_cons P c l' (Element_children_ind c) (all l')
            end) cs)
  end.

End ElementInduction.

(** A white-space character of the normaliser. *)
Definition blank (c : uchar) : Prop := c = sp ∨ c = nl ∨ c = tab.

#[global] Instance blank_dec (c : uchar) : Decision (blank c).
Proof. unfold blank. apply _. Defined.

(** The characters of a text that are not white space, in order. *)
Definition words_of (s : ustring) : ustring := filter (λ c, ¬ blank c) s.

(** The same tree under other tag names. *)
Fixpoint retag (f : ustring → ustring) (e : Element) : Element :=
  match e with
  | Elem tg tx tl cs => Elem (f tg) tx tl (map (retag f) cs)
  end.



Section NodeInduction.

Variable P : Node → Prop.
Hypothesis step :
  ∀ tg tx tl cs, Forall P cs → P (Nd tg tx tl cs).


End NodeInduction.

(** ** Inputs used in examples *)

(** [xs n] is the word [u'x' * n], used to build long lines. *)
Definition xs (n : nat) : ustring := replicate n 120%N.

(** The document [<a>X<b>Y</b>Z</a>]: [Z] follows the end tag of [b]
    and so is the tail of [b]. *)
Definition doc_XYZ : Element :=
  Elem (u "a") (Some (u "X")) None
       [Elem (u "b") (Some (u "Y")) (Some (u "Z")) []].

(** The document [<a><b>T<c>U</c></b>V</a>]: [V] is the tail of [b],
    and [U] the text of its child [c]. *)
Definition doc_TUV : Element :=
  Elem (u "a") None None
       [Elem (u "b") (Some (u "T")) (Some (u "V"))
             [Elem (u "c") (Some (u "U")) None []]].



(** Nothing written yet. *)
Definition world0 : world := {| files := ∅; stream := [] |}.

(** * Properties *)

(** ** Strings *)

Lemma startswith_app (p r : ustring) : Str.startswith (p ++ r) p = true.
Proof. induction p as [| b p IH]; [done |]. simpl. by case_decide. Qed.

Lemma startswith_inv (s p : ustring) :
  Str.startswith s p = true → ∃ r, s = p ++ r.
Proof.
  revert s. induction p as [| b p IH]; intros s H; [by exists s |].
  destruct s as [| a s]; [done |]. simpl in H.
  destruct (decide (a = b)) as [-> |]; [| done].
  destruct (IH _ H) as [r ->]. by exists r.
Qed.

Lemma contains_occurs (sub s : ustring) :
  Str.contains sub s = true ↔ occurs sub s.
Proof.
  unfold Str.contains. rewrite Z.leb_le. split.
  - induction s as [| c s IH].
    + unfold Str.find. destruct (Str.startswith [] sub) eqn:E; [| lia].
      intros _. apply startswith_inv in E as [r E]. by exists [], r.
    + rewrite find_cons. destruct (Str.startswith (c :: s) sub) eqn:E.
      * intros _. apply startswith_inv in E as [r E]. by exists [], r.
      * destruct (Z.ltb_spec (Str.find s sub) 0); [lia |]. intros _.
        destruct IH as (pre & post & ->); [done |]. by exists (c :: pre), post.
  - intros (pre & post & ->). induction pre as [| c pre IH].
    + cbn [app]. destruct (sub ++ post) eqn:E.
      * destruct sub; [simpl; lia | done].
      * rewrite find_cons, <- E, startswith_app. lia.
    + cbn [app]. rewrite find_cons. destruct (Str.startswith _ _); [lia |].
      destruct (Z.ltb_spec (Str.find (pre ++ sub ++ post) sub) 0); lia.
Qed.

Lemma not_contains_cons (c : uchar) (s sub : ustring) :
  Str.contains sub (c :: s) = false →
  Str.startswith (c :: s) sub = false ∧ Str.contains sub s = false.
Proof.
  unfold Str.contains. rewrite find_cons.
  destruct (Str.startswith (c :: s) sub); [done |].
  destruct (Z.ltb_spec (Str.find s sub) 0); intros Hc.
  - split; [done |]. apply Z.leb_gt. lia.
  - apply Z.leb_gt in Hc. lia.
Qed.

(** Replacing a string that does not occur changes nothing. *)
Lemma replace_absent (s old new : ustring) :
  Str.contains old s = false → Str.replace s old new = s.
Proof.
  induction s as [| c s IH]; [done |]. intros H.
  apply not_contains_cons in H as [Hsw H].
  rewrite replace_cons, Hsw. f_equal. by apply IH.
Qed.

Lemma contains_char (c : uchar) (s : ustring) :
  Str.contains [c] s = true ↔ c ∈ s.
Proof.
  rewrite contains_occurs. split.
  - intros (pre & post & ->). set_solver.
  - intros (pre & post & ->)%list_elem_of_split. by exists pre, post.
Qed.

(** [find] of a single character returns the index of its first
    occurrence. *)
Lemma find_char_first (c : uchar) (s : ustring) (k : nat) :
  s !! k = Some c → (∀ j, (j < k)%nat → s !! j ≠ Some c) →
  Str.find s [c] = Z.of_nat k.
Proof.
  revert k. induction s as [| a s IH]; intros k Hk Hfirst; [done |].
  rewrite find_cons. simpl. destruct (decide (a = c)) as [-> | Hne].
  - destruct k; [done |]. by destruct (Hfirst 0%nat); [lia |].
  - destruct k as [| k]; [simpl in Hk; congruence |].
    rewrite (IH k); [| done |].
    + destruct (Z.ltb_spec (Z.of_nat k) 0); lia.
    + intros j Hj. apply (Hfirst (S j)). lia.
Qed.

Lemma find_char_none (c : uchar) (s : ustring) :
  c ∉ s → Str.find s [c] = -1.
Proof.
  intros H. pose proof (find_lower s [c]).
  destruct (Z.leb_spec 0 (Str.find s [c])) as [Hge |]; [| lia].
  apply Z.leb_le in Hge. by apply contains_char in Hge.
Qed.

(** Replacing one character by another is a character-wise map. *)
Lemma replace_char (a b : uchar) (s : ustring) :
  Str.replace s [a] [b] = map (λ x, if decide (x = a) then b else x) s.
Proof.
  induction s as [| c s IH]; [done |].
  rewrite replace_cons. simpl. rewrite drop_0, IH.
  by destruct (decide (c = a)).
Qed.

(** [find] of a single character, read backwards: a non-negative result
    is the index of the first occurrence. *)
Lemma find_char_inv (c : uchar) (s : ustring) :
  0 ≤ Str.find s [c] →
  s !! Z.to_nat (Str.find s [c]) = Some c ∧
  ∀ j, (j < Z.to_nat (Str.find s [c]))%nat → s !! j ≠ Some c.
Proof.
  induction s as [| a s IH]; [simpl; lia |].
  rewrite find_cons. simpl. destruct (decide (a = c)) as [-> | Hne].
  - intros _. split; [done |]. simpl. lia.
  - destruct (Z.ltb_spec (Str.find s [c]) 0) as [| Hge]; [lia |]. intros _.
    destruct (IH Hge) as [Hat Hfirst].
    replace (Z.to_nat (1 + Str.find s [c])) with (S (Z.to_nat (Str.find s [c])))
      by lia.
    split; [done |]. intros [| j] Hj; simpl; [congruence |].
    apply Hfirst. lia.
Qed.

(** ** The word wrapper *)

Lemma splitline_body_out (L : ustring) (out : list ustring) :
  splitline_body L out =
  ((splitline_body L []).1, out ++ (splitline_body L []).2).
Proof.
  unfold splitline_body. destruct (Str.len L <? 72); [done |].
  by destruct (0 <=? _).
Qed.

(** The list [out] is only appended to. *)
Lemma splitline_loop_acc (L : ustring) (out : list ustring) :
  splitline_loop L out = out ++ splitline_loop L [].
Proof.
  remember (length L) as n eqn:Hn. revert L out Hn.
  induction (lt_wf n) as [n _ IH]. intros L out ->.
  destruct L as [| c L]; simp splitline_loop; [by rewrite app_nil_r |].
  pose proof (splitline_body_shorter (c :: L) [] ltac:(done)) as Hlt.
  rewrite (splitline_body_out (c :: L) out). cbn [fst snd].
  rewrite (IH _ Hlt _ (out ++ _) eq_refl).
  rewrite (IH _ Hlt _ (splitline_body (c :: L) []).2 eq_refl).
  by rewrite app_assoc.
Qed.

Lemma splitline_empty : splitline [] = [].
Proof. reflexivity. Qed.

Lemma splitline_short (L : ustring) :
  L ≠ [] → Str.len L < 72 → splitline L = [L].
Proof.
  intros HL Hlen. destruct L as [| c L]; [done |].
  unfold splitline. simp splitline_loop. unfold splitline_body.
  apply Z.ltb_lt in Hlen. rewrite Hlen. cbn [fst snd]. by simp splitline_loop.
Qed.

Lemma splitline_break (L : ustring) :
  72 ≤ Str.len L → 0 ≤ Str.find (Str.from 60 L) [sp] →
  splitline L =
  Str.upto (60 + Str.find (Str.from 60 L) [sp]) L
  :: splitline (Str.from (60 + Str.find (Str.from 60 L) [sp] + 1) L).
Proof.
  intros Hlen Hpos. destruct L as [| c L]; [unfold Str.len in Hlen; simpl in Hlen; lia |].
  unfold splitline at 1. simp splitline_loop. unfold splitline_body.
  apply Z.ltb_ge in Hlen. rewrite Hlen. change (u " ") with [sp].
  apply Z.leb_le in Hpos. rewrite Hpos. cbn [fst snd].
  by rewrite splitline_loop_acc.
Qed.

Lemma splitline_nobreak (L : ustring) :
  72 ≤ Str.len L → Str.find (Str.from 60 L) [sp] < 0 → splitline L = [L].
Proof.
  intros Hlen Hpos. destruct L as [| c L]; [unfold Str.len in Hlen; simpl in Hlen; lia |].
  unfold splitline. simp splitline_loop. unfold splitline_body.
  apply Z.ltb_ge in Hlen. rewrite Hlen. change (u " ") with [sp].
  apply Z.leb_gt in Hpos. rewrite Hpos. cbn [fst snd]. by simp splitline_loop.
Qed.

(** A line that is not empty gives at least one sub-line. *)
Lemma splitline_nonempty (L : ustring) : L ≠ [] → splitline L ≠ [].
Proof.
  intros HL. destruct (Z.lt_ge_cases (Str.len L) 72) as [Hlt | Hge].
  - by rewrite splitline_short.
  - destruct (Z.lt_ge_cases (Str.find (Str.from 60 L) [sp]) 0).
    + by rewrite splitline_nobreak.
    + by rewrite splitline_break.
Qed.

Lemma join_cons (sep p : ustring) (rest : list ustring) :
  rest ≠ [] → Str.join sep (p :: rest) = p ++ sep ++ Str.join sep rest.
Proof. by destruct rest. Qed.

(** The break taken at the first space at or after offset 60, in terms
    of positions in the line. *)
Lemma splitline_break_at (L : ustring) (k : nat) :
  (72 ≤ length L)%nat →
  L !! (60 + k)%nat = Some sp →
  (∀ j, (j < k)%nat → L !! (60 + j)%nat ≠ Some sp) →
  splitline L = take (60 + k) L :: splitline (drop (60 + k + 1) L).
Proof.
  intros Hlen Hk Hfirst.
  assert (Str.find (Str.from 60 L) [sp] = Z.of_nat k) as Hfind.
  { apply find_char_first; unfold Str.from.
    - by rewrite lookup_drop.
    - intros j Hj. rewrite lookup_drop. by apply Hfirst. }
  rewrite splitline_break; [| unfold Str.len; lia | lia].
  rewrite Hfind. unfold Str.upto, Str.from.
  by replace (Z.to_nat (60 + Z.of_nat k)) with (60 + k)%nat by lia;
     replace (Z.to_nat (60 + Z.of_nat k + 1)) with (60 + k + 1)%nat by lia.
Qed.

Lemma splitline_nobreak_at (L : ustring) :
  (72 ≤ length L)%nat →
  (∀ i, (60 ≤ i)%nat → L !! i ≠ Some sp) →
  splitline L = [L].
Proof.
  intros Hlen Hno. apply splitline_nobreak; [unfold Str.len; lia |].
  rewrite find_char_none; [lia |]. unfold Str.from.
  intros (i & Hi)%list_elem_of_lookup. rewrite lookup_drop in Hi.
  by apply (Hno (Z.to_nat 60 + i)%nat); [lia |].
Qed.

(** The three ways a line that is not empty is treated, with the
    position [k] of the break read off [find]. *)
Lemma splitline_cases (L : ustring) :
  L ≠ [] →
  ((length L < 72)%nat ∧ splitline L = [L])
  ∨ ((72 ≤ length L)%nat ∧ (sp ∉ drop 60 L) ∧ splitline L = [L])
  ∨ (∃ k : nat, (72 ≤ length L)%nat ∧ L !! (60 + k)%nat = Some sp ∧
       (sp ∉ take k (drop 60 L)) ∧
       splitline L = take (60 + k) L :: splitline (drop (60 + k + 1) L)).
Proof.
  intros HL. destruct (Z.lt_ge_cases (Str.len L) 72) as [Hlt | Hge].
  { left. unfold Str.len in Hlt. split; [lia |]. apply splitline_short; [done |].
    unfold Str.len. lia. }
  right. unfold Str.len in Hge.
  destruct (Z.lt_ge_cases (Str.find (Str.from 60 L) [sp]) 0) as [Hneg | Hpos].
  - left. split; [lia |]. split.
    + intros Hin%contains_char. unfold Str.contains in Hin.
      apply Z.leb_le in Hin. unfold Str.from in Hneg.
      change (Z.to_nat 60) with 60%nat in Hneg. lia.
    + apply splitline_nobreak; [unfold Str.len; lia | done].
  - right. destruct (find_char_inv _ _ Hpos) as [Hat Hfirst].
    set (k := Z.to_nat (Str.find (Str.from 60 L) [sp])) in *.
    unfold Str.from in Hat, Hfirst.
    change (Z.to_nat 60) with 60%nat in Hat, Hfirst.
    exists k. split; [lia |]. rewrite lookup_drop in Hat. split; [done |]. split.
    + intros (j & Hj & Hlt)%elem_of_take. by apply (Hfirst j).
    + apply splitline_break_at; [lia | done |].
      intros j Hj. rewrite <- lookup_drop. by apply Hfirst.
Qed.

(** C3, as stated, fails on the empty line: [while L:] is never entered
    and [splitline] returns the empty list, not the list of one empty
    line. *)
Lemma splitline_short_passthrough_counterexample :
  (length ([] : ustring) < 72)%nat ∧ splitline [] ≠ [[]].
Proof. split; [simpl; lia | by rewrite splitline_empty]. Qed.

(** C3 (amended): every line that is strictly shorter than 72
    characters and not empty comes back unchanged as the only sub-line;
    the empty line gives no sub-line at all. *)
Theorem splitline_short_passthrough (line : ustring) :
  (length line < 72)%nat →
  splitline line = match line with [] => [] | _ :: _ => [line] end.
Proof.
  intros Hlen. destruct line as [| c line]; [apply splitline_empty |].
  apply splitline_short; [done |]. unfold Str.len. lia.
Qed.

Lemma splitline_short_passthrough_witness :
  (length (u "Goodbye now.") < 72)%nat ∧
  splitline (u "Goodbye now.") = [u "Goodbye now."].
Proof.
  assert (length (u "Goodbye now.") < 72)%nat as Hlt by (vm_compute; lia).
  split; [exact Hlt |].
  exact (splitline_short_passthrough (u "Goodbye now.") Hlt).
Defined.

(** C5: a segment of at least 72 characters is broken at the first
    space at or after offset 60: the prefix before that space is one
    sub-line, the space belongs to neither side and the rest is wrapped
    in turn; without such a space the whole segment is the last
    sub-line. A line of 100 characters whose first such space is at
    offset 65 has a first sub-line of 65 characters. *)
Theorem splitline_long_split (L : ustring) :
  (72 ≤ length L)%nat →
  (∀ k : nat,
     L !! (60 + k)%nat = Some sp →
     (∀ j, (j < k)%nat → L !! (60 + j)%nat ≠ Some sp) →
     splitline L = take (60 + k) L :: splitline (drop (60 + k + 1) L)
     ∧ L = take (60 + k) L ++ sp :: drop (60 + k + 1) L
     ∧ length (take (60 + k) L) = (60 + k)%nat) ∧
  ((∀ i, (60 ≤ i)%nat → L !! i ≠ Some sp) → splitline L = [L]) ∧
  (length L = 100%nat →
   L !! 65%nat = Some sp →
   (∀ j, (60 ≤ j < 65)%nat → L !! j ≠ Some sp) →
   ∃ first, splitline L = first :: splitline (drop 66 L)
            ∧ first = take 65 L ∧ length first = 65%nat).
Proof.
  intros Hlen. split; [| split].
  - intros k Hk Hfirst. split; [by apply splitline_break_at |]. split.
    + replace (60 + k + 1)%nat with (S (60 + k)) by lia.
      symmetry. by apply take_drop_middle.
    + apply lookup_lt_Some in Hk. rewrite length_take. lia.
  - by apply splitline_nobreak_at.
  - intros H100 H65 Hfirst. exists (take 65 L).
    split; [| split; [done | rewrite length_take; lia]].
    apply (splitline_break_at L 5 Hlen H65).
    intros j Hj. apply Hfirst. lia.
Qed.

Lemma splitline_long_split_witness :
  (72 ≤ length (xs 65 ++ sp :: xs 34))%nat ∧
  splitline (xs 65 ++ sp :: xs 34) = [xs 65; xs 34].
Proof.
  assert (72 ≤ length (xs 65 ++ sp :: xs 34))%nat as Hlen by (vm_compute; lia).
  split; [exact Hlen |].
  destruct (splitline_long_split (xs 65 ++ sp :: xs 34) Hlen) as (_ & _ & H100).
  destruct H100 as (first & Hsplit & Hfirst & _).
  - reflexivity.
  - reflexivity.
  - intros j [Hlo Hhi].
    do 60 (destruct j as [| j]; [lia |]).
    do 5 (destruct j as [| j]; [vm_compute; congruence |]). lia.
  - rewrite Hsplit, Hfirst. reflexivity.
Defined.

(** C4, as stated, fails for either reading of the wrap width (60 or
    72): a line of 100 characters whose only space is at offset 2 comes
    back whole, since only spaces from offset 60 on are looked for. *)
Lemma splitline_budget_counterexample :
  u "ab " ++ xs 97 ∈ splitline (u "ab " ++ xs 97) ∧
  ¬ within_budget 72 (u "ab " ++ xs 97) ∧
  ¬ within_budget 60 (u "ab " ++ xs 97).
Proof.
  assert (splitline (u "ab " ++ xs 97) = [u "ab " ++ xs 97]) as ->
    by (vm_compute; reflexivity).
  split; [apply list_elem_of_here |].
  split; (intros [Hlt | Hno];
    [vm_compute in Hlt; lia
    | apply Hno, list_elem_of_lookup; by exists 2%nat]).
Qed.

(** C4 (amended): every sub-line is shorter than 72 characters, or has
    no space at or after offset 60. *)
Theorem splitline_lines_bounded (line l : ustring) :
  l ∈ splitline line → (length l < 72)%nat ∨ sp ∉ drop 60 l.
Proof.
  remember (length line) as n eqn:Hn. revert line Hn.
  induction (lt_wf n) as [n _ IH]. intros line -> Hl.
  destruct (decide (line = [])) as [-> | Hne].
  { rewrite splitline_empty in Hl. by apply not_elem_of_nil in Hl. }
  destruct (splitline_cases line Hne)
    as [[Hlt Hs] | [(Hge & Hno & Hs) | (k & Hge & Hk & Hno & Hs)]];
    rewrite Hs in Hl.
  - apply list_elem_of_singleton in Hl as ->. by left.
  - apply list_elem_of_singleton in Hl as ->. by right.
  - apply elem_of_cons in Hl as [-> | Hl].
    + right. by rewrite <- take_drop_commute.
    + apply (IH (length (drop (60 + k + 1) line))) with (drop (60 + k + 1) line);
        [rewrite length_drop; lia | done | done].
Qed.

Lemma splitline_lines_bounded_witness :
  xs 65 ∈ splitline (xs 65 ++ sp :: xs 34) ∧
  ((length (xs 65) < 72)%nat ∨ sp ∉ drop 60 (xs 65)).
Proof.
  assert (xs 65 ∈ splitline (xs 65 ++ sp :: xs 34)) as Hin.
  { assert (splitline (xs 65 ++ sp :: xs 34) = [xs 65; xs 34]) as ->
      by (vm_compute; reflexivity).
    apply list_elem_of_here. }
  split; [exact Hin |].
  exact (splitline_lines_bounded (xs 65 ++ sp :: xs 34) (xs 65) Hin).
Defined.

(** C10, as stated, fails when a break falls on the last character of
    the line: 71 letters followed by one space give a single sub-line
    of 71 letters, and the space is lost. *)
Lemma splitline_join_counterexample :
  Str.join [sp] (splitline (xs 71 ++ [sp])) ≠ xs 71 ++ [sp].
Proof.
  intros H. apply (f_equal length) in H. vm_compute in H. lia.
Qed.

(** C10 (amended): joining the sub-lines with single spaces gives back
    the line, except that a break falling on the last character drops
    that final space; a line that does not end in a space is given
    back exactly. *)
Theorem splitline_join (line : ustring) :
  (last line ≠ Some sp → Str.join [sp] (splitline line) = line) ∧
  (Str.join [sp] (splitline line) = line
   ∨ Str.join [sp] (splitline line) ++ [sp] = line).
Proof.
  remember (length line) as n eqn:Hn. revert line Hn.
  induction (lt_wf n) as [n _ IH]. intros line ->.
  destruct (decide (line = [])) as [-> | Hne].
  { rewrite splitline_empty. by split; [| left]. }
  destruct (splitline_cases line Hne)
    as [[Hlt Hs] | [(Hge & Hno & Hs) | (k & Hge & Hk & Hno & Hs)]];
    rewrite Hs; try (by split; [| left]).
  pose proof (take_drop_middle line (60 + k) sp Hk) as Hmid.
  replace (S (60 + k)) with (60 + k + 1)%nat in Hmid by lia.
  set (P := take (60 + k) line) in *. set (R := drop (60 + k + 1) line) in *.
  destruct (IH (length R)) with R as [IHexact IHsome]; [| done |].
  { unfold R. rewrite length_drop. lia. }
  destruct (decide (R = [])) as [HR | HR].
  - rewrite HR in *. rewrite splitline_empty. cbn [Str.join]. split; [| by right].
    intros Hlast. rewrite <- Hmid in Hlast. by rewrite last_snoc in Hlast.
  - rewrite join_cons by by apply splitline_nonempty.
    assert (last line = last R) as Hlast.
    { rewrite <- Hmid, last_app_cons.
      destruct R as [| r R']; [done |]. by rewrite last_cons_cons. }
    split.
    + intros H. rewrite IHexact by by rewrite <- Hlast. done.
    + destruct IHsome as [-> | Hs']; [by left | right].
      rewrite <- Hmid, <- !app_assoc. cbn [app]. by rewrite Hs'.
Qed.

Lemma splitline_join_witness :
  last (xs 65 ++ sp :: xs 34) ≠ Some sp ∧
  Str.join [sp] (splitline (xs 65 ++ sp :: xs 34)) = xs 65 ++ sp :: xs 34.
Proof.
  assert (last (xs 65 ++ sp :: xs 34) ≠ Some sp) as Hlast
    by (vm_compute; congruence).
  split; [exact Hlast |].
  exact (proj1 (splitline_join (xs 65 ++ sp :: xs 34)) Hlast).
Defined.

(** ** The flattener *)

(** With the tag [u"*"] the iterator leaves no element out: it lists
    the tree in document order. *)
Lemma getiterator_star (root : Element) :
  getiterator (u "*") root = preorder root.
Proof.
  unfold getiterator. induction root as [tg tx tl cs IH] using Element_children_ind.
  cbn [iter preorder]. rewrite decide_True by done. f_equal.
  induction IH as [| c cs Hc _ IHcs]; [done |].
  cbn [flat_map]. by rewrite Hc, IHcs.
Qed.

(** C1, as stated, fails: for [<a>X<b>Y</b>Z</a>] the program's text is
    not [X Y Z], the tail [Z] of [b] being joined to the text [Y] of
    [b] without a space between them; and the tail of an element comes
    before the text of its children, not after it: in
    [<a><b>T<c>U</c></b>V</a>] the tail [V] of [b] precedes [U]. *)
Lemma flatten_order_counterexample :
  flatten doc_XYZ ≠ u "X Y Z" ∧ flatten doc_TUV = u " TV U".
Proof. split; [vm_compute; congruence | by vm_compute]. Qed.

(** C1 (amended): the elements are visited in document order and each
    contributes its text directly followed by its own tail, before
    anything of its children; the contributions are joined by single
    spaces. For [<a>X<b>Y</b>Z</a>] this gives [X YZ]. *)
Theorem flatten_text_then_tail :
  flatten doc_XYZ = u "X YZ" ∧
  (∀ root, flatten root = Str.join [sp] (map contribution (preorder root))) ∧
  (∀ tg tx tl cs,
     map contribution (preorder (Elem tg tx tl cs)) =
     (por tx [] ++ por tl [])
     :: flat_map (λ c, map contribution (preorder c)) cs).
Proof.
  split; [by vm_compute |]. split.
  - intros root. unfold flatten. by rewrite getiterator_star.
  - intros tg tx tl cs. cbn [preorder map]. f_equal.
    induction cs as [| c cs IH]; [done |].
    cbn [flat_map]. by rewrite map_app, IH.
Qed.

(** ** Entities *)

(** [makeparser] copies the whole table into the parser. *)
Lemma makeparser_entity (name : ustring) :
  entity makeparser !! name = ENTITIES !! name.
Proof. reflexivity. Qed.


Lemma predefined_names (name : ustring) :
  is_Some (predefined name) ↔
  name ∈ [u "amp"; u "lt"; u "gt"; u "quot"; u "apos"].
Proof.
  unfold predefined. split.
  - intros Hsome. repeat case_decide; subst;
      by repeat (apply list_elem_of_here || apply list_elem_of_further).
  - intros Hin.
    repeat (apply elem_of_cons in Hin as [-> | Hin]; [by eexists |]).
    by apply not_elem_of_nil in Hin.
Qed.

(** The table has [mdash] and [hellip] and nothing else. *)
Lemma ENTITIES_names (name : ustring) :
  is_Some (ENTITIES !! name) ↔ name ∈ [u "mdash"; u "hellip"].
Proof.
  unfold ENTITIES. split.
  - intros Hsome.
    destruct (decide (name = u "mdash")) as [-> | Hm]; [apply list_elem_of_here |].
    destruct (decide (name = u "hellip")) as [-> | Hh];
      [apply list_elem_of_further, list_elem_of_here |].
    rewrite !lookup_insert_ne, lookup_empty in Hsome by done.
    by destruct Hsome.
  - intros Hin.
    repeat (apply elem_of_cons in Hin as [-> | Hin]; [by eexists |]).
    by apply not_elem_of_nil in Hin.
Qed.

(** When a reference is resolved: by expat for the five entities of its
    own, and otherwise from the table, if the parser has the foreign-DTD
    switch on and the document is not standalone. *)
Lemma resolve_reference (parser : XMLParser) (sa : bool) (name : ustring) :
  is_Some (resolve_piece parser sa (EntityRef name)) ↔
  is_Some (predefined name)
  ∨ (foreign_dtd parser = true ∧ sa = false ∧ is_Some (entity parser !! name)).
Proof.
  cbn [resolve_piece]. destruct (predefined name) as [s |].
  { split; [by left | by eexists]. }
  destruct (foreign_dtd parser), sa; cbn [andb negb]; split;
    try (by intros [[? [=]] | (? & ? & ?)]);
    try (by intros [? [=]]);
    by right.
Qed.

Lemma resolve_text_is_Some (parser : XMLParser) (sa : bool) (xs : list piece) :
  is_Some (resolve_text parser sa xs) ↔
  ∀ name, EntityRef name ∈ xs →
          is_Some (resolve_piece parser sa (EntityRef name)).
Proof.
  induction xs as [| x xs IH].
  - split; [by intros _ name H%not_elem_of_nil | by eexists].
  - cbn [resolve_text]. split.
    + intros Hsome name [<- | Hin]%elem_of_cons.
      * destruct (resolve_piece parser sa (EntityRef name));
          [by eexists | by destruct Hsome].
      * apply IH; [| done]. destruct (resolve_piece parser sa x);
          [| by destruct Hsome].
        destruct (resolve_text parser sa xs); [by eexists | by destruct Hsome].
    + intros Hall. destruct (proj2 IH) as [t ->].
      { intros name Hin. apply Hall. by apply list_elem_of_further. }
      destruct x as [s | name]; [by eexists |].
      destruct (Hall name) as [r ->]; [apply list_elem_of_here |]. by eexists.
Qed.










(** ** Output *)

Lemma join_snoc_empty (sep : ustring) (l : list ustring) :
  l ≠ [] → Str.join sep (l ++ [[]]) = Str.join sep l ++ sep.
Proof.
  induction l as [| p l IH]; [done |]. intros _.
  destruct l as [| q l].
  - cbn. by rewrite app_nil_r.
  - change ((p :: q :: l) ++ [[]]) with (p :: ((q :: l) ++ [[]])).
    rewrite (join_cons sep p ((q :: l) ++ [[]])) by done.
    rewrite IH by done.
    rewrite (join_cons sep p (q :: l)) by done. by rewrite <- !app_assoc.
Qed.

Lemma encode_utf8_app (s t : ustring) :
  encode_utf8 (s ++ t) = encode_utf8 s ++ encode_utf8 t.
Proof. apply flat_map_app. Qed.

(** C8, as stated, fails for a document without any text, such as
    [<a/>]: there is no sub-line, the joined text with the empty string
    appended is empty, and nothing is written to the stream, so no
    trailing newline either. *)
Lemma stream_trailing_newline_counterexample :
  outlines_of (Elem (u "a") None None []) = [] ∧
  stream (xmltextnorm (Elem (u "a") None None []) OutStream world0)
  ≠ stream world0
    ++ encode_utf8 (Str.join [nl] (outlines_of (Elem (u "a") None None [])))
    ++ encode_utf8 [nl].
Proof. split; [by vm_compute |]. by vm_compute. Qed.

(** C8 (amended): to a stream the program writes the sub-lines joined
    by newlines and, when there is at least one sub-line, one trailing
    newline (with no sub-line it writes nothing); to a file name it
    writes the sub-lines joined by newlines and nothing after them, as
    the whole content of that file. All of it is encoded as UTF-8. *)
Theorem output_trailing_newline (outlines : list ustring) (w : world) :
  (outlines ≠ [] →
   stream (write_output OutStream outlines w)
   = stream w ++ encode_utf8 (Str.join [nl] outlines) ++ [10%N])
  ∧ stream (write_output OutStream [] w) = stream w
  ∧ files (write_output OutStream outlines w) = files w
  ∧ ∀ path,
      files (write_output (OutName path) outlines w) !! path
      = Some (encode_utf8 (Str.join [nl] outlines))
      ∧ stream (write_output (OutName path) outlines w) = stream w
      ∧ ∀ other, other ≠ path →
          files (write_output (OutName path) outlines w) !! other
          = files w !! other.
Proof.
  split; [| split; [| split]].
  - intros Hne. cbn [write_output stream].
    by rewrite join_snoc_empty, encode_utf8_app.
  - cbn. by rewrite app_nil_r.
  - done.
  - intros path. cbn [write_output files stream].
    split; [by rewrite lookup_insert_eq |]. split; [done |].
    intros other Hne. by rewrite lookup_insert_ne.
Qed.

Lemma output_trailing_newline_witness :
  [u "Hello world."; u "Goodbye now."] ≠ [] ∧
  stream (write_output OutStream [u "Hello world."; u "Goodbye now."] world0)
  = stream world0
    ++ encode_utf8 (Str.join [nl] [u "Hello world."; u "Goodbye now."])
    ++ [10%N].
Proof.
  assert ([u "Hello world."; u "Goodbye now."] ≠ []) as Hne by done.
  split; [exact Hne |].
  exact (proj1 (output_trailing_newline _ world0) Hne).
Defined.

(** ** The command line *)

(** C9 fails on the code: with a single argument the comparison
    [sys.argv == 2] of a list with a number is false, the help branch
    is not taken, and the argument, whether a help word or not, is
    used as the name of the input file. *)
Theorem help_request_runs_files
    (splitext : string → string * string) (prog arg : string) :
  main splitext [prog; arg]
  = Some (RunFiles arg ((splitext arg).1 +:+ ".txt"))
  ∧ main splitext [prog; arg] ≠ Some PrintUsage
  ∧ "-h"%string ∈ help_words.
Proof.
  split; [reflexivity |]. split; [done |]. apply list_elem_of_here.
Qed.

(** The other forms of invocation behave as documented. *)
Lemma main_other_forms
    (splitext : string → string * string) (prog a b c : string)
    (rest : list string) :
  main splitext [prog] = Some RunStdio
  ∧ main splitext [prog; a; b] = Some (RunFiles a b)
  ∧ main splitext (prog :: a :: b :: c :: rest) = Some PrintUsage.
Proof.
  split; [reflexivity |]. split; [reflexivity |].
  unfold main. cbn [length].
  destruct (Z.eqb_spec (Z.of_nat (S (S (S (S (length rest)))))) 1); [lia |].
  destruct (Z.ltb_spec 3 (Z.of_nat (S (S (S (S (length rest))))))); [done | lia].
Qed.

(** ** The normaliser *)

Lemma collapse_spaces_step (text : ustring) :
  collapse_spaces text =
  if Str.contains (u "  ") text
  then collapse_spaces (Str.replace text (u "  ") (u " "))
  else text.
Proof.
  rewrite collapse_spaces_equation_1 at 1.
  destruct (decide _) as [H | H]; simp collapse_spaces.
  - by rewrite H.
  - by apply not_true_is_false in H as ->.
Qed.

(** [replace] brings in no character that is neither in the string nor
    in [new]. *)
Lemma replace_elem_aux (x : uchar) (old new : ustring) (n : nat) (s : ustring) :
  (length s ≤ n)%nat → x ∈ Str.replace s old new → x ∈ s ∨ x ∈ new.
Proof.
  revert s. induction n as [| n IH]; intros s Hn.
  { destruct s; [| simpl in Hn; lia]. by left. }
  destruct s as [| c s]; [by left |]. simpl in Hn. rewrite replace_cons.
  destruct (Str.startswith (c :: s) old).
  - intros [Hx | Hx]%elem_of_app; [by right |].
    apply IH in Hx as [Hx | Hx]; [| by right | rewrite length_drop; lia].
    left. apply list_elem_of_further. revert Hx. apply subseteq_drop.
  - intros [-> | Hx]%elem_of_cons; [left; apply list_elem_of_here |].
    apply IH in Hx as [Hx | Hx]; [| by right | lia].
    left. by apply list_elem_of_further.
Qed.

Lemma replace_elem (x : uchar) (s old new : ustring) :
  x ∈ Str.replace s old new → x ∈ s ∨ x ∈ new.
Proof. by apply (replace_elem_aux x old new (length s)). Qed.

(** Replacing a pair of characters: either the string starts with the
    pair, or its first character is kept. *)
Lemma replace_pair_cases (a b c : uchar) (s new : ustring) :
  (c = a ∧ ∃ s', s = b :: s' ∧
     Str.replace (c :: s) [a; b] new = new ++ Str.replace s' [a; b] new)
  ∨ ((c ≠ a ∨ head s ≠ Some b) ∧
     Str.replace (c :: s) [a; b] new = c :: Str.replace s [a; b] new).
Proof.
  rewrite replace_cons. cbn [Str.startswith].
  destruct (decide (c = a)) as [-> | Hc]; [| right; split; [by left | done]].
  destruct s as [| d s]; [right; split; [by right | done] |].
  destruct (decide (d = b)) as [-> | Hd].
  - left. split; [done |]. by exists s.
  - right. split; [| done]. right. cbn. congruence.
Qed.

(** Induction on strings two characters at a time. *)
Lemma ustring_pair_ind (Q : ustring → Prop) :
  Q [] → (∀ c, Q [c]) → (∀ c d s, Q s → Q (d :: s) → Q (c :: d :: s)) →
  ∀ s, Q s.
Proof.
  intros Hnil Hone Hstep s.
  assert (Q s ∧ ∀ c, Q (c :: s)) as [H _]; [| done].
  induction s as [| d s [IH1 IH2]]; [by split |].
  split; [apply IH2 |]. intros c. by apply Hstep.
Qed.

Lemma sentence_break_pointwise (p : uchar) (s : ustring) :
  Forall2 kept_or_broken s (Str.replace s [p; sp] [p; nl]).
Proof.
  induction s as [| c | c d s IH1 IH2] using ustring_pair_ind.
  - constructor.
  - destruct (replace_pair_cases p sp c [] [p; nl])
      as [(_ & s' & Hs & _) | [_ ->]]; [done |].
    repeat constructor.
  - destruct (replace_pair_cases p sp c (d :: s) [p; nl])
      as [(-> & s' & Hs & ->) | [_ ->]].
    + injection Hs as -> <-. constructor; [by left |].
      constructor; [by right | done].
    + constructor; [by left | done].
Qed.

Lemma kept_or_broken_elem (x : uchar) (s t : ustring) :
  Forall2 kept_or_broken s t → x ≠ nl → x ∈ t → x ∈ s.
Proof.
  intros H Hx. induction H as [| c d s t Hcd _ IH]; [done |].
  intros [-> | Hin]%elem_of_cons.
  - destruct Hcd as [-> | [_ ->]]; [apply list_elem_of_here | done].
  - by apply list_elem_of_further, IH.
Qed.

Lemma kept_or_broken_spaces (s t : ustring) :
  Forall2 kept_or_broken s t → occurs [sp; sp] t → occurs [sp; sp] s.
Proof.
  intros H (pre & post & ->).
  apply Forall2_app_inv_r in H as (pre' & rest & _ & H & ->).
  apply Forall2_cons_inv_r in H as (c1 & rest1 & H1 & H & ->).
  apply Forall2_cons_inv_r in H as (c2 & rest2 & H2 & _ & ->).
  destruct H1 as [<- | [_ ?]]; [| done]. destruct H2 as [<- | [_ ?]]; [| done].
  by exists pre', rest2.
Qed.

Lemma not_mark (x : uchar) : x ∈ [sp; nl; tab] → x ∉ marks.
Proof.
  intros Hx Hm%contains_char.
  repeat (apply elem_of_cons in Hx as [-> | Hx]; [by vm_compute in Hm |]).
  by apply not_elem_of_nil in Hx.
Qed.

Lemma mark_not_blank (p : uchar) : p ∈ marks → p ≠ sp ∧ p ≠ nl ∧ p ≠ tab.
Proof.
  intros Hp. repeat split; intros ->; revert Hp; apply not_mark; set_solver.
Qed.

Lemma breaks_ok_no_newline (prev : option uchar) (s : ustring) :
  nl ∉ s → breaks_ok prev s.
Proof.
  revert prev. induction s as [| c s IH]; intros prev Hnl; [done |].
  apply not_elem_of_cons in Hnl as [Hc Hs]. split; [| by apply IH].
  by intros ->.
Qed.

Lemma breaks_ok_after_space (q : option uchar) (s : ustring) :
  breaks_ok (Some sp) s → breaks_ok q s.
Proof.
  destruct s as [| c s]; [done |]. intros [Hc Hs]. split; [| done].
  intros Hnl. destruct (Hc Hnl) as (m & [= <-] & Hm).
  exfalso. revert Hm. apply not_mark, list_elem_of_here.
Qed.

Lemma breaks_ok_replace (p : uchar) (s : ustring) :
  p ∈ marks →
  ∀ prev, breaks_ok prev s → breaks_ok prev (Str.replace s [p; sp] [p; nl]).
Proof.
  intros Hp. induction s as [| c | c d s IH1 IH2] using ustring_pair_ind;
    intros prev H.
  - done.
  - by destruct (replace_pair_cases p sp c [] [p; nl])
      as [(_ & s' & Hs & _) | [_ ->]].
  - destruct (replace_pair_cases p sp c (d :: s) [p; nl])
      as [(-> & s' & Hs & ->) | [_ ->]].
    + injection Hs as -> <-. destruct H as (Hc & _ & Hs).
      split; [done |]. split; [by exists p |].
      apply IH1. by apply breaks_ok_after_space.
    + destruct H as [Hc Hs]. split; [done |]. by apply IH2.
Qed.

Lemma breaks_ok_lookup (s : ustring) :
  ∀ prev, breaks_ok prev s →
  ∀ i, s !! i = Some nl →
       (i = 0%nat ∧ ∃ m, prev = Some m ∧ m ∈ marks)
       ∨ ∃ j m, i = S j ∧ s !! j = Some m ∧ m ∈ marks.
Proof.
  induction s as [| c s IH]; intros prev H i Hi; [done |].
  destruct H as [Hc Hs]. destruct i as [| i].
  - left. split; [done |]. injection Hi as ->. by apply Hc.
  - right. destruct (IH _ Hs i Hi) as [(-> & m & [= ->] & Hm) | (j & m & -> & Hj & Hm)].
    + by exists 0%nat, m.
    + by exists (S j), m.
Qed.

(** What holds of the text and is kept by each replacement of the
    [for] loop holds of its result. *)
Lemma sentence_breaks_ind (Q : ustring → Prop) (text : ustring) :
  Q text →
  (∀ p s, p ∈ marks → Q s → Q (Str.replace s [p; sp] [p; nl])) →
  Q (sentence_breaks text).
Proof.
  intros Htext Hstep. unfold sentence_breaks.
  assert (∀ l, l ⊆ marks → ∀ t, Q t →
            Q (fold_left (λ text p, Str.replace text [p; sp] [p; nl]) l t))
    as Hfold; [| by apply Hfold].
  induction l as [| p l IH]; intros Hl t Ht; [done |].
  cbn [fold_left]. apply IH; [set_solver |]. apply Hstep; [set_solver | done].
Qed.

(** What holds of the text and is kept by each pass of the [while] loop
    holds of its result, which has no two spaces in a row. *)
Lemma collapse_spaces_ind (Q : ustring → Prop) (text : ustring) :
  Q text →
  (∀ s, Q s → Str.contains (u "  ") s = true →
        Q (Str.replace s (u "  ") (u " "))) →
  Q (collapse_spaces text) ∧
  Str.contains (u "  ") (collapse_spaces text) = false.
Proof.
  intros Htext Hstep. remember (length text) as n eqn:Hn.
  revert text Htext Hn. induction (lt_wf n) as [n _ IH]. intros text Htext ->.
  rewrite collapse_spaces_step.
  destruct (Str.contains (u "  ") text) eqn:Hin; [| done].
  apply (IH (length (Str.replace text (u "  ") (u " ")))); [| by apply Hstep | done].
  apply replace_shorter; [simpl; lia | done].
Qed.

Lemma replace_whitespace_blank_free (text : ustring) :
  (nl ∉ replace_whitespace text) ∧ (tab ∉ replace_whitespace text).
Proof.
  unfold replace_whitespace. change (u " ") with [sp]. rewrite !replace_char.
  split; intros (y & Hy & Hin)%list_elem_of_fmap;
    [| by destruct (decide (y = tab))].
  destruct (decide (y = tab)); [done |]. subst y.
  apply list_elem_of_fmap in Hin as (z & Hz & _).
  by destruct (decide (z = nl)).
Qed.

(** C6, as stated, fails: a text without tab, newline or double space
    is still changed by the third step when a punctuation mark is
    followed by a space. *)
Lemma normalize_noop_counterexample :
  (tab ∉ u "Hello world. Goodbye now.")
  ∧ (nl ∉ u "Hello world. Goodbye now.")
  ∧ ¬ occurs [sp; sp] (u "Hello world. Goodbye now.")
  ∧ normalize (u "Hello world. Goodbye now.") ≠ u "Hello world. Goodbye now.".
Proof.
  split; [by intros H%contains_char |].
  split; [by intros H%contains_char |].
  split; [by intros H%contains_occurs |].
  by vm_compute.
Qed.

(** C6 (amended): on a text without tab, newline or two spaces in a row
    the two white-space steps change nothing, so that normalising it
    only inserts the sentence breaks; if moreover no punctuation mark
    is followed by a space, the normaliser returns the text unchanged. *)
Theorem normalize_noop (text : ustring) :
  tab ∉ text → nl ∉ text → ¬ occurs [sp; sp] text →
  collapse_spaces (replace_whitespace text) = text
  ∧ normalize text = sentence_breaks text
  ∧ ((∀ p, p ∈ marks → ¬ occurs [p; sp] text) → normalize text = text).
Proof.
  intros Htab Hnl Hsp.
  assert (collapse_spaces (replace_whitespace text) = text) as Hws.
  { unfold replace_whitespace.
    rewrite (replace_absent text [nl]), (replace_absent text [tab]).
    - rewrite collapse_spaces_step.
      destruct (Str.contains (u "  ") text) eqn:Hin; [| done].
      by apply contains_occurs in Hin.
    - apply not_true_is_false. by intros H%contains_char.
    - apply not_true_is_false. by intros H%contains_char. }
  split; [done |]. unfold normalize. rewrite Hws. split; [done |].
  intros Hmarks. apply (sentence_breaks_ind (λ t, t = text)); [done |].
  intros p s Hp ->. apply replace_absent, not_true_is_false.
  intros H%contains_occurs. by apply (Hmarks p).
Qed.

Lemma normalize_noop_witness :
  (tab ∉ u "Goodbye now.") ∧ (nl ∉ u "Goodbye now.")
  ∧ ¬ occurs [sp; sp] (u "Goodbye now.")
  ∧ (∀ p, p ∈ marks → ¬ occurs [p; sp] (u "Goodbye now."))
  ∧ normalize (u "Goodbye now.") = u "Goodbye now.".
Proof.
  assert (tab ∉ u "Goodbye now.") as Htab by by intros H%contains_char.
  assert (nl ∉ u "Goodbye now.") as Hnl by by intros H%contains_char.
  assert (¬ occurs [sp; sp] (u "Goodbye now.")) as Hsp
    by by intros H%contains_occurs.
  assert (∀ p, p ∈ marks → ¬ occurs [p; sp] (u "Goodbye now.")) as Hmarks.
  { intros p Hp H%contains_occurs. revert H.
    repeat (apply elem_of_cons in Hp as [-> | Hp]; [by vm_compute |]).
    by apply not_elem_of_nil in Hp. }
  split; [exact Htab |]. split; [exact Hnl |]. split; [exact Hsp |].
  split; [exact Hmarks |].
  exact (proj2 (proj2 (normalize_noop _ Htab Hnl Hsp)) Hmarks).
Defined.

Lemma collapse_spaces_normal (text : ustring) :
  nl ∉ text → tab ∉ text → normal_text (collapse_spaces text).
Proof.
  intros Hnl Htab.
  destruct (collapse_spaces_ind (λ t, (nl ∉ t) ∧ (tab ∉ t)) text) as [[Hnl' Htab'] Hsp].
  - done.
  - intros s [Hn Ht] _.
    split; intros [H | H]%replace_elem; try done;
      apply list_elem_of_singleton in H; done.
  - split; [done |]. split; [| by apply breaks_ok_no_newline].
    intros H%contains_occurs. change (u "  ") with [sp; sp] in Hsp. congruence.
Qed.

Lemma sentence_breaks_normal (text : ustring) :
  normal_text text → normal_text (sentence_breaks text).
Proof.
  intros H. apply sentence_breaks_ind; [done |].
  intros p s Hp (Htab & Hsp & Hbr). pose proof (sentence_break_pointwise p s) as Hpt.
  split; [| split].
  - intros Hin. by apply Htab, (kept_or_broken_elem tab _ _ Hpt).
  - intros Hin. by apply Hsp, (kept_or_broken_spaces _ _ Hpt).
  - by apply breaks_ok_replace.
Qed.

(** C7: normalised text has no tab, no newline other than one that
    directly follows a punctuation mark, and no two spaces in a row;
    the loop that collapses double spaces stops after finitely many
    passes, each made on a text that still has a double space, at a
    text without double spaces that a further replacement leaves as it
    is. *)
Theorem normalize_invariant (text : ustring) :
  (tab ∉ normalize text)
  ∧ (∀ i, normalize text !! i = Some nl →
          ∃ j m, i = S j ∧ normalize text !! j = Some m ∧ m ∈ marks)
  ∧ ¬ occurs [sp; sp] (normalize text)
  ∧ (∃ n, collapse_spaces (replace_whitespace text)
          = Nat.iter n (λ t, Str.replace t (u "  ") (u " "))
                     (replace_whitespace text)
          ∧ ∀ m, (m < n)%nat →
                 occurs [sp; sp]
                   (Nat.iter m (λ t, Str.replace t (u "  ") (u " "))
                             (replace_whitespace text)))
  ∧ ¬ occurs [sp; sp] (collapse_spaces (replace_whitespace text))
  ∧ Str.replace (collapse_spaces (replace_whitespace text)) (u "  ") (u " ")
    = collapse_spaces (replace_whitespace text).
Proof.
  destruct (replace_whitespace_blank_free text) as [Hnl Htab].
  pose proof (collapse_spaces_normal _ Hnl Htab) as Hcollapsed.
  destruct (sentence_breaks_normal _ Hcollapsed) as (Ht & Hsp & Hbr).
  fold (normalize text) in Ht, Hsp, Hbr.
  split; [done |]. split.
  { intros i Hi.
    by destruct (breaks_ok_lookup _ _ Hbr i Hi) as [(_ & m & ? & _) | ?]. }
  split; [done |].
  destruct (collapse_spaces_ind
              (λ t, ∃ n, t = Nat.iter n (λ t, Str.replace t (u "  ") (u " "))
                                     (replace_whitespace text)
                         ∧ ∀ m, (m < n)%nat →
                                occurs [sp; sp]
                                  (Nat.iter m
                                     (λ t, Str.replace t (u "  ") (u " "))
                                     (replace_whitespace text)))
              (replace_whitespace text)) as [Hiter Hfix].
  - exists 0%nat. split; [done | lia].
  - intros s (n & -> & Hbefore) Hin. exists (S n). split; [done |].
    intros m Hm. destruct (decide (m = n)) as [-> | Hne].
    + by apply contains_occurs.
    + apply Hbefore. lia.
  - split; [done |]. split; [by destruct Hcollapsed as (_ & ? & _) |].
    by apply replace_absent.
Qed.

Lemma normalize_invariant_witness :
  normalize (u "Hello  world. Goodbye") !! 12%nat = Some nl
  ∧ ∃ j m, 12%nat = S j
           ∧ normalize (u "Hello  world. Goodbye") !! j = Some m ∧ m ∈ marks.
Proof.
  assert (normalize (u "Hello  world. Goodbye") !! 12%nat = Some nl) as Hnl
    by (vm_compute; reflexivity).
  split; [exact Hnl |].
  exact (proj1 (proj2 (normalize_invariant (u "Hello  world. Goodbye"))) 12%nat Hnl).
Defined.

(** * Further properties of the code *)

(** ** [splitline] *)

(** Induction along the passes of the loop of [splitline]. *)
Lemma splitline_rect (Q : ustring → list ustring → Prop) :
  Q [] [] →
  (∀ L, L ≠ [] → (length L < 72)%nat → Q L [L]) →
  (∀ L, (72 ≤ length L)%nat → sp ∉ drop 60 L → Q L [L]) →
  (∀ L k, (72 ≤ length L)%nat → L !! (60 + k)%nat = Some sp →
          sp ∉ take k (drop 60 L) →
          Q (drop (60 + k + 1) L) (splitline (drop (60 + k + 1) L)) →
          Q L (take (60 + k) L :: splitline (drop (60 + k + 1) L))) →
  ∀ L, Q L (splitline L).
Proof.
  intros Hnil Hshort Hwhole Hbreak L.
  remember (length L) as n eqn:Hn. revert L Hn.
  induction (lt_wf n) as [n _ IH]. intros L ->.
  destruct (decide (L = [])) as [-> | Hne]; [by rewrite splitline_empty |].
  destruct (splitline_cases L Hne)
    as [[Hlt Hs] | [(Hge & Hno & Hs) | (k & Hge & Hk & Hno & Hs)]];
    rewrite Hs.
  - by apply Hshort.
  - by apply Hwhole.
  - apply Hbreak; try done.
    apply (IH (length (drop (60 + k + 1) L))); [| done].
    rewrite length_drop. lia.
Qed.

(** A line without a space at or after offset 60 is never broken. *)
Lemma splitline_whole (L : ustring) :
  L ≠ [] → sp ∉ drop 60 L → splitline L = [L].
Proof.
  intros Hne Hno.
  destruct (splitline_cases L Hne)
    as [[_ Hs] | [(_ & _ & Hs) | (k & Hge & Hk & _ & _)]]; [done | done |].
  exfalso. apply Hno, list_elem_of_lookup. exists k. by rewrite lookup_drop.
Qed.

(** X1: no sub-line is empty, and every sub-line but the last has at
    least 60 characters. *)
Theorem splitline_sublines_length (line l : ustring) (i : nat) :
  splitline line !! i = Some l →
  l ≠ [] ∧ ((S i < length (splitline line))%nat → (60 ≤ length l)%nat).
Proof.
  revert l i. pattern line, (splitline line). apply splitline_rect; clear line.
  - done.
  - intros L Hne _ l [| i] Hi; [| done].
    assert (l = L) as -> by (by injection Hi).
    split; [done | simpl; lia].
  - intros L Hge _ l [| i] Hi; [| done].
    assert (l = L) as -> by (by injection Hi).
    split; [intros ->; simpl in Hge; lia | simpl; lia].
  - intros L k Hge Hk _ IH l [| i] Hi.
    + assert (l = take (60 + k) L) as -> by (by injection Hi).
      apply lookup_lt_Some in Hk.
      assert (length (take (60 + k) L) = (60 + k)%nat) as Hlen
        by (rewrite length_take; lia).
      split; [| lia]. intros Hnil. rewrite Hnil in Hlen. simpl in Hlen. lia.
    + destruct (IH l i Hi) as [Hne Hlen]. split; [done |].
      cbn [length]. intros Hlt. apply Hlen. lia.
Qed.

Lemma splitline_sublines_length_witness :
  splitline (xs 65 ++ sp :: xs 34) !! 0%nat = Some (xs 65) ∧
  xs 65 ≠ [] ∧
  ((1 < length (splitline (xs 65 ++ sp :: xs 34)))%nat →
   (60 ≤ length (xs 65))%nat).
Proof.
  assert (splitline (xs 65 ++ sp :: xs 34) !! 0%nat = Some (xs 65)) as H
    by (vm_compute; reflexivity).
  split; [exact H |].
  exact (splitline_sublines_length _ _ _ H).
Defined.

(** X2: wrapping a sub-line again leaves it as it is. *)
Theorem splitline_stable (line l : ustring) :
  l ∈ splitline line → splitline l = [l].
Proof.
  revert l. pattern line, (splitline line). apply splitline_rect; clear line.
  - by intros l H%not_elem_of_nil.
  - intros L Hne Hlt l Hl. apply list_elem_of_singleton in Hl as ->.
    apply splitline_short; [done | unfold Str.len; lia].
  - intros L Hge Hno l Hl. apply list_elem_of_singleton in Hl as ->.
    apply splitline_whole; [| done]. intros ->. simpl in Hge. lia.
  - intros L k Hge Hk Hno IH l [-> | Hin]%elem_of_cons; [| by apply IH].
    apply lookup_lt_Some in Hk. apply splitline_whole.
    + intros Hnil. apply (f_equal length) in Hnil.
      rewrite length_take in Hnil. cbn [length] in Hnil. lia.
    + by rewrite <- take_drop_commute.
Qed.

Lemma splitline_stable_witness :
  xs 65 ∈ splitline (xs 65 ++ sp :: xs 34) ∧ splitline (xs 65) = [xs 65].
Proof.
  assert (xs 65 ∈ splitline (xs 65 ++ sp :: xs 34)) as Hin.
  { assert (splitline (xs 65 ++ sp :: xs 34) = [xs 65; xs 34]) as ->
      by (vm_compute; reflexivity).
    apply list_elem_of_here. }
  split; [exact Hin |].
  exact (splitline_stable _ _ Hin).
Defined.

(** X3: a line that is not empty and has no space, however long, is
    given back as one sub-line. *)
Theorem splitline_no_space (line : ustring) :
  line ≠ [] → sp ∉ line → splitline line = [line].
Proof.
  intros Hne Hno. apply splitline_whole; [done |].
  intros Hin. apply Hno. revert Hin. apply subseteq_drop.
Qed.

Lemma splitline_no_space_witness :
  xs 200 ≠ [] ∧ (sp ∉ xs 200) ∧ splitline (xs 200) = [xs 200].
Proof.
  assert (xs 200 ≠ []) as Hne by done.
  assert (sp ∉ xs 200) as Hno.
  { by intros [=]%elem_of_replicate_inv. }
  split; [exact Hne |]. split; [exact Hno |].
  exact (splitline_no_space _ Hne Hno).
Defined.

(** X4: the sub-lines, put end to end, are the line without the spaces
    at which it was broken: apart from spaces, every character comes
    out once and in its place. *)
Theorem splitline_keeps_characters (line : ustring) :
  filter (λ c, c ≠ sp) (concat (splitline line)) = filter (λ c, c ≠ sp) line.
Proof.
  pattern line, (splitline line). apply splitline_rect; clear line.
  - done.
  - intros L _ _. cbn [concat]. by rewrite app_nil_r.
  - intros L _ _. cbn [concat]. by rewrite app_nil_r.
  - intros L k _ Hk _ IH. cbn [concat]. rewrite filter_app, IH.
    pose proof (take_drop_middle L (60 + k) sp Hk) as Hmid.
    replace (S (60 + k)) with (60 + k + 1)%nat in Hmid by lia.
    rewrite <- Hmid at 3. rewrite filter_app. by f_equal.
Qed.

(** ** The normaliser *)

(** A replacement whose two sides have the same selected characters
    does not change the selected characters of the string. *)
Lemma filter_replace (P : uchar → Prop) `{!∀ c, Decision (P c)}
    (old new : ustring) :
  old ≠ [] → filter P old = filter P new →
  ∀ s, filter P (Str.replace s old new) = filter P s.
Proof.
  intros Hold Hsame s. remember (length s) as n eqn:Hn. revert s Hn.
  induction (lt_wf n) as [n _ IH]. intros s ->.
  destruct s as [| c s]; [done |]. rewrite replace_cons.
  destruct (Str.startswith (c :: s) old) eqn:Hsw.
  - apply startswith_inv in Hsw as [r Hr].
    destruct old as [| o old']; [done |]. injection Hr as -> ->.
    cbn [length]. rewrite Nat.sub_succ, Nat.sub_0_r, drop_app_length.
    rewrite filter_app, (IH (length r)); [| simpl; rewrite length_app; lia | done].
    by rewrite <- Hsame, <- filter_app.
  - rewrite !filter_cons, (IH (length s)); [done | simpl; lia | done].
Qed.

Lemma words_of_replace_whitespace (text : ustring) :
  words_of (replace_whitespace text) = words_of text.
Proof.
  unfold words_of, replace_whitespace. by rewrite !filter_replace.
Qed.

Lemma words_of_collapse_spaces (text : ustring) :
  words_of (collapse_spaces text) = words_of text.
Proof.
  destruct (collapse_spaces_ind (λ t, words_of t = words_of text) text)
    as [-> _]; [done | | done].
  intros s <- _. unfold words_of. by apply filter_replace.
Qed.

Lemma words_of_sentence_breaks (text : ustring) :
  words_of (sentence_breaks text) = words_of text.
Proof.
  apply (sentence_breaks_ind (λ t, words_of t = words_of text)); [done |].
  intros p s _ <-. unfold words_of. apply filter_replace; [done |].
  by rewrite !(filter_cons _ p).
Qed.

Lemma length_replace_whitespace (text : ustring) :
  length (replace_whitespace text) = length text.
Proof.
  unfold replace_whitespace. change (u " ") with [sp].
  by rewrite !replace_char, !length_map.
Qed.

Lemma kept_or_broken_trans (a b c : ustring) :
  Forall2 kept_or_broken a b → Forall2 kept_or_broken b c →
  Forall2 kept_or_broken a c.
Proof.
  intros Hab. revert c. induction Hab as [| x y a b Hxy _ IH]; intros c Hbc.
  - by apply Forall2_nil_inv_l in Hbc as ->.
  - apply Forall2_cons_inv_l in Hbc as (z & c' & Hyz & Hbc & ->).
    constructor; [| by apply IH].
    destruct Hxy as [-> | [-> ->]]; [done |].
    destruct Hyz as [-> | [? _]]; [by right | done].
Qed.

(** Over the whole [for] loop, a character is kept or is a space that
    has become a newline. *)
Lemma sentence_breaks_pointwise (text : ustring) :
  Forall2 kept_or_broken text (sentence_breaks text).
Proof.
  apply (sentence_breaks_ind (Forall2 kept_or_broken text)).
  - induction text; constructor; [by left | done].
  - intros p s _ H. apply (kept_or_broken_trans _ _ _ H).
    apply sentence_break_pointwise.
Qed.

(** The first step of the normaliser undoes the sentence breaks. *)
Lemma replace_whitespace_unbreak (w t : ustring) :
  Forall2 kept_or_broken w t → nl ∉ w → tab ∉ w → replace_whitespace t = w.
Proof.
  unfold replace_whitespace. change (u " ") with [sp]. rewrite !replace_char.
  induction 1 as [| c d w t Hcd _ IH]; [done |].
  intros [Hc Hw]%not_elem_of_cons [Hc' Hw']%not_elem_of_cons.
  cbn [map]. rewrite IH by done. f_equal.
  destruct Hcd as [-> | [-> ->]]; [| done].
  rewrite (decide_False (P := c = nl)) by done.
  by rewrite decide_False.
Qed.

Lemma collapse_spaces_blank_free (text : ustring) :
  nl ∉ text → tab ∉ text →
  (nl ∉ collapse_spaces text) ∧ (tab ∉ collapse_spaces text)
  ∧ Str.contains [sp; sp] (collapse_spaces text) = false.
Proof.
  intros Hnl Htab.
  destruct (collapse_spaces_ind (λ t, (nl ∉ t) ∧ (tab ∉ t)) text)
    as [[Hnl' Htab'] Hsp]; [done | | done].
  intros s [Hn Ht] _.
  split; intros [H | H]%replace_elem; try done;
    apply list_elem_of_singleton in H; done.
Qed.

(** X5: normalising a normalised text changes nothing. *)
Theorem normalize_idempotent (text : ustring) :
  normalize (normalize text) = normalize text.
Proof.
  unfold normalize at 1 2.
  destruct (replace_whitespace_blank_free text) as [Hnl Htab].
  destruct (collapse_spaces_blank_free _ Hnl Htab) as (Hnl' & Htab' & Hsp).
  set (w := collapse_spaces (replace_whitespace text)) in *.
  rewrite (replace_whitespace_unbreak w) by
    (by apply sentence_breaks_pointwise || done).
  rewrite (collapse_spaces_step w). change (u "  ") with [sp; sp].
  by rewrite Hsp.
Qed.

(** X6: the normaliser changes white space only: the characters that
    are not a space, tab or newline come out unchanged and in order,
    and the text never gets longer. *)
Theorem normalize_keeps_words (text : ustring) :
  words_of (normalize text) = words_of text
  ∧ (length (normalize text) ≤ length text)%nat.
Proof.
  unfold normalize. split.
  - by rewrite words_of_sentence_breaks, words_of_collapse_spaces,
      words_of_replace_whitespace.
  - rewrite <- (Forall2_length _ _ _ (sentence_breaks_pointwise _)).
    destruct (collapse_spaces_ind
                (λ t, (length t ≤ length text)%nat) (replace_whitespace text))
      as [H _]; [by rewrite length_replace_whitespace | | done].
    intros s Hs Hin. apply (replace_shorter (u "  ") (u " ")) in Hin; [lia |].
    simpl. lia.
Qed.

Lemma occurs_pair_lookup (a b : uchar) (t : ustring) :
  occurs [a; b] t ↔ ∃ i, t !! i = Some a ∧ t !! S i = Some b.
Proof.
  split.
  - intros (pre & post & ->). exists (length pre).
    split; rewrite lookup_app_r by lia.
    + by rewrite Nat.sub_diag.
    + by replace (S (length pre) - length pre)%nat with 1%nat by lia.
  - intros (i & Ha & Hb). exists (take i t), (drop (S (S i)) t).
    rewrite <- (take_drop_middle t i a Ha) at 1.
    by rewrite (drop_S t b (S i) Hb).
Qed.

(** Every occurrence of the pair is replaced. *)
Lemma replace_pair_all (a b c : uchar) (s : ustring) :
  a ≠ b →
  ∀ i, s !! i = Some a → s !! S i = Some b →
       Str.replace s [a; b] [a; c] !! S i = Some c.
Proof.
  intros Hab. induction s as [| x | x y s IH1 IH2] using ustring_pair_ind;
    intros i Ha Hb; [done | by destruct i |].
  destruct (replace_pair_cases a b x (y :: s) [a; c])
    as [(-> & s' & Hs & ->) | [Hskip ->]].
  - injection Hs as -> <-. destruct i as [| [| i]]; [done | |].
    + cbn in Ha. congruence.
    + by apply (IH1 i).
  - destruct i as [| i].
    + cbn in Ha, Hb. destruct Hskip as [? | ?]; cbn in *; congruence.
    + by apply (IH2 i).
Qed.

Lemma kept_or_broken_pair (a : uchar) (s t : ustring) :
  a ≠ nl → Forall2 kept_or_broken s t → occurs [a; sp] t → occurs [a; sp] s.
Proof.
  intros Ha H (pre & post & ->).
  apply Forall2_app_inv_r in H as (pre' & rest & _ & H & ->).
  apply Forall2_cons_inv_r in H as (c1 & rest1 & H1 & H & ->).
  apply Forall2_cons_inv_r in H as (c2 & rest2 & H2 & _ & ->).
  destruct H1 as [<- | [_ ?]]; [| done]. destruct H2 as [<- | [_ ?]]; [| done].
  by exists pre', rest2.
Qed.

Lemma sentence_break_all (p : uchar) (s : ustring) :
  p ≠ sp → p ≠ nl → ¬ occurs [p; sp] (Str.replace s [p; sp] [p; nl]).
Proof.
  intros Hsp Hnl Hocc.
  apply occurs_pair_lookup in Hocc as (i & Hi & HSi).
  pose proof (sentence_break_pointwise p s) as Hpt.
  destruct (Forall2_lookup_r _ _ _ i p Hpt Hi) as (c1 & Hc1 & [<- | [_ ?]]);
    [| done].
  destruct (Forall2_lookup_r _ _ _ (S i) sp Hpt HSi) as (c2 & Hc2 & [<- | [_ ?]]);
    [| done].
  pose proof (replace_pair_all p sp nl s Hsp i Hc1 Hc2) as Hbr.
  rewrite HSi in Hbr. done.
Qed.

(** After the whole [for] loop no mark is followed by a space. *)
Lemma sentence_breaks_all_marks (t : ustring) (p : uchar) :
  p ∈ marks → ¬ occurs [p; sp] (sentence_breaks t).
Proof.
  intros Hp. destruct (mark_not_blank p Hp) as (Hsp & Hnl & _).
  unfold sentence_breaks.
  assert (∀ l t, (p ∈ l ∨ ¬ occurs [p; sp] t) →
            ¬ occurs [p; sp]
              (fold_left (λ text q, Str.replace text [q; sp] [q; nl]) l t))
    as Hfold; [| by apply Hfold; left].
  clear t. induction l as [| q l IH]; intros t Hcase.
  - by destruct Hcase as [?%not_elem_of_nil |].
  - cbn [fold_left]. apply IH.
    destruct Hcase as [[-> | Hl]%elem_of_cons | Hfree].
    + right. by apply sentence_break_all.
    + by left.
    + right. intros Hocc. apply Hfree.
      by apply (kept_or_broken_pair p _ _ Hnl (sentence_break_pointwise q t)).
Qed.

(** X7: the sentence breaks are exactly the spaces that directly follow
    a punctuation mark in the text left by the two white-space steps:
    each such space has become a newline, the mark before it and every
    other character are in place unchanged, and so no mark of the
    normalised text is followed by a space. *)
Theorem normalize_breaks_all (text : ustring) :
  length (normalize text) = length (single_spaced text)
  ∧ (∀ j m, single_spaced text !! j = Some m → m ∈ marks →
            single_spaced text !! S j = Some sp →
            normalize text !! j = Some m ∧ normalize text !! S j = Some nl)
  ∧ (∀ i c, single_spaced text !! i = Some c →
            normalize text !! i = Some c
            ∨ (c = sp ∧ normalize text !! i = Some nl
               ∧ ∃ j m, i = S j ∧ single_spaced text !! j = Some m
                        ∧ m ∈ marks))
  ∧ (∀ p, p ∈ marks → ¬ occurs [p; sp] (normalize text)).
Proof.
  change (normalize text) with (sentence_breaks (single_spaced text)).
  destruct (replace_whitespace_blank_free text) as [Hnl Htab].
  pose proof (collapse_spaces_normal _ Hnl Htab) as Hnormal.
  apply sentence_breaks_normal in Hnormal as (_ & _ & Hbr).
  fold (single_spaced text) in Hbr.
  pose proof (sentence_breaks_pointwise (single_spaced text)) as Hpt.
  set (w := single_spaced text) in *. set (t := sentence_breaks w) in *.
  split; [symmetry; by apply (Forall2_length _ _ _ Hpt) |].
  split; [| split; [| intros p Hp; by apply sentence_breaks_all_marks]].
  - intros j m Hj Hm HSj. destruct (mark_not_blank m Hm) as (Hsp & Hmnl & _).
    destruct (Forall2_lookup_l _ _ _ j m Hpt Hj) as (d & Hd & [-> | [? _]]);
      [| done].
    split; [done |].
    destruct (Forall2_lookup_l _ _ _ (S j) sp Hpt HSj) as (d' & Hd' & [-> | [_ ->]]);
      [| done].
    exfalso. apply (sentence_breaks_all_marks w m Hm).
    apply occurs_pair_lookup. by exists j.
  - intros i c Hi.
    destruct (Forall2_lookup_l _ _ _ i c Hpt Hi) as (d & Hd & [-> | [-> ->]]);
      [by left | right].
    split; [done |]. split; [done |].
    destruct (breaks_ok_lookup _ _ Hbr i Hd) as [(_ & m & [=] & _) | (j & m & -> & Hj & Hm)].
    exists j, m. split; [done |]. split; [| done].
    destruct (mark_not_blank m Hm) as (_ & Hmnl & _).
    by destruct (Forall2_lookup_r _ _ _ j m Hpt Hj) as (c' & Hc' & [-> | [_ ?]]).
Qed.

Lemma normalize_breaks_all_witness :
  single_spaced (u "Hello  world. Goodbye") !! 11%nat = Some 46%N
  ∧ 46%N ∈ marks
  ∧ single_spaced (u "Hello  world. Goodbye") !! 12%nat = Some sp
  ∧ normalize (u "Hello  world. Goodbye") !! 11%nat = Some 46%N
  ∧ normalize (u "Hello  world. Goodbye") !! 12%nat = Some nl.
Proof.
  assert (single_spaced (u "Hello  world. Goodbye") !! 11%nat = Some 46%N)
    as Hj by (vm_compute; reflexivity).
  assert (46%N ∈ marks) as Hm by apply list_elem_of_here.
  assert (single_spaced (u "Hello  world. Goodbye") !! 12%nat = Some sp)
    as HSj by (vm_compute; reflexivity).
  split; [exact Hj |]. split; [exact Hm |]. split; [exact HSj |].
  exact (proj1 (proj2 (normalize_breaks_all (u "Hello  world. Goodbye")))
           11%nat 46%N Hj Hm HSj).
Defined.

(** ** The flattener and the parser *)

Lemma preorder_retag (f : ustring → ustring) (e : Element) :
  preorder (retag f e) = map (retag f) (preorder e).
Proof.
  induction e as [tg tx tl cs IH] using Element_children_ind.
  cbn [retag preorder map]. f_equal.
  induction IH as [| c cs Hc _ IHcs]; [done |].
  cbn [map flat_map]. by rewrite map_app, Hc, IHcs.
Qed.

(** X8: the flattened text does not depend on the names of the tags. *)
Theorem flatten_ignores_tags (f : ustring → ustring) (root : Element) :
  flatten (retag f root) = flatten root.
Proof.
  unfold flatten. rewrite !getiterator_star, preorder_retag, map_map.
  f_equal. apply map_ext. by intros [tg tx tl cs].
Qed.

Lemma length_join (sep : ustring) (l : list ustring) :
  length (Str.join sep l)
  = (sum_list (map length l) + length sep * (length l - 1))%nat.
Proof.
  induction l as [| p l IH]; [simpl; lia |].
  destruct l as [| q l]; [simpl; lia |].
  rewrite (join_cons sep p (q :: l)) by done.
  rewrite !length_app, IH. cbn [map sum_list length]. unfold id.
  replace (S (length l) - 1)%nat with (length l) by lia.
  replace (S (S (length l)) - 1)%nat with (S (length l)) by lia. lia.
Qed.

(** X9: every element adds one contribution to the join, empty or
    not: the flattened text has the characters of all texts and tails
    and one space for every element after the first. *)
Theorem flatten_length (root : Element) :
  length (flatten root)
  = (sum_list (map (λ p, length (por (text p) []) + length (por (tail p) []))
                   (preorder root))
     + (length (preorder root) - 1))%nat.
Proof.
  unfold flatten. rewrite getiterator_star, length_join, length_map, map_map.
  cbn [length]. rewrite Nat.mul_1_l. f_equal. f_equal.
  apply map_ext. intros p. unfold contribution. by rewrite length_app.
Qed.

(** X10: with the parser of [makeparser], character data is resolved
    exactly when each of its entity references is to one of the five
    predefined entities or, in a document that is not standalone, to
    [mdash] or [hellip]; any other reference is an error. With a parser
    whose foreign-DTD switch is off, whatever its table, only the
    predefined entities are resolved. *)
Theorem resolve_text_known_entities (sa : bool) (xs : list piece) :
  (is_Some (resolve_text makeparser sa xs)
   ↔ ∀ name, EntityRef name ∈ xs →
             name ∈ [u "amp"; u "lt"; u "gt"; u "quot"; u "apos"]
             ∨ (sa = false ∧ name ∈ [u "mdash"; u "hellip"]))
  ∧ (∀ parser, foreign_dtd parser = false →
       (is_Some (resolve_text parser sa xs)
        ↔ ∀ name, EntityRef name ∈ xs →
                  name ∈ [u "amp"; u "lt"; u "gt"; u "quot"; u "apos"])).
Proof.
  split; [| intros parser Hoff]; rewrite resolve_text_is_Some;
    split; intros Hall name Hin; specialize (Hall name Hin).
  - apply resolve_reference in Hall as [Hpre | (_ & -> & Htab)].
    + left. by apply predefined_names.
    + right. split; [done |]. by apply ENTITIES_names.
  - apply resolve_reference. destruct Hall as [Hpre | [-> Htab]].
    + left. by apply predefined_names.
    + right. repeat split. rewrite makeparser_entity. by apply ENTITIES_names.
  - apply resolve_reference in Hall as [Hpre | (Hon & _)].
    + by apply predefined_names.
    + congruence.
  - apply resolve_reference. left. by apply predefined_names.
Qed.

(** ** The pipeline *)

Lemma wrap_lines_flat (text : ustring) :
  wrap_lines text = concat (map splitline (Str.split nl text)).
Proof.
  unfold wrap_lines.
  assert (∀ l acc, fold_left (λ outlines line, outlines ++ splitline line) l acc
                   = acc ++ concat (map splitline l)) as Hfold; [| apply Hfold].
  induction l as [| f l IH]; intros acc; cbn [fold_left map concat].
  - by rewrite app_nil_r.
  - by rewrite IH, app_assoc.
Qed.

Lemma split_nonempty (sep : uchar) (s : ustring) : Str.split sep s ≠ [].
Proof.
  destruct s as [| c s]; [done |]. cbn [Str.split].
  destruct (decide (c = sep)); [done |]. by destruct (Str.split sep s).
Qed.

Lemma join_cons_head (sep : ustring) (c : uchar) (f : ustring)
    (fs : list ustring) :
  Str.join sep ((c :: f) :: fs) = c :: Str.join sep (f :: fs).
Proof. by destruct fs. Qed.

(** Joining the fields of a split gives the string back. *)
Lemma join_split (sep : uchar) (s : ustring) :
  Str.join [sep] (Str.split sep s) = s.
Proof.
  induction s as [| c s IH]; [done |]. cbn [Str.split].
  destruct (decide (c = sep)) as [-> | Hne].
  - rewrite join_cons by apply split_nonempty. by rewrite IH.
  - pose proof (split_nonempty sep s) as Hs.
    destruct (Str.split sep s) as [| f fs]; [done |].
    by rewrite join_cons_head, IH.
Qed.

Lemma split_fields (sep : uchar) (s f : ustring) :
  f ∈ Str.split sep s → sep ∉ f.
Proof.
  revert f. induction s as [| c s IH]; intros f; cbn [Str.split].
  - intros ->%list_elem_of_singleton. apply not_elem_of_nil.
  - destruct (decide (c = sep)) as [-> | Hne].
    + intros [-> | Hf]%elem_of_cons; [apply not_elem_of_nil | by apply IH].
    + pose proof (split_nonempty sep s) as Hs.
      destruct (Str.split sep s) as [| g gs]; [done |].
      intros [-> | Hf]%elem_of_cons.
      * apply not_elem_of_cons. split; [done |]. apply IH, list_elem_of_here.
      * by apply IH, list_elem_of_further.
Qed.

Lemma split_app_sep (sep : uchar) (p r : ustring) :
  sep ∉ p → Str.split sep (p ++ sep :: r) = p :: Str.split sep r.
Proof.
  induction p as [| c p IH]; intros Hp; cbn [app Str.split].
  - by rewrite decide_True.
  - apply not_elem_of_cons in Hp as [Hc Hp].
    rewrite decide_False by done. by rewrite IH.
Qed.

Lemma split_no_sep (sep : uchar) (p : ustring) :
  sep ∉ p → Str.split sep p = [p].
Proof.
  induction p as [| c p IH]; intros Hp; [done |]. cbn [Str.split].
  apply not_elem_of_cons in Hp as [Hc Hp].
  rewrite decide_False by done. by rewrite IH.
Qed.

(** Splitting a join of fields free of the separator gives the fields
    back. *)
Lemma split_join (sep : uchar) (l : list ustring) :
  l ≠ [] → Forall (λ f, sep ∉ f) l → Str.split sep (Str.join [sep] l) = l.
Proof.
  induction l as [| p l IH]; [done |]. intros _ [Hp Hl]%Forall_cons.
  destruct l as [| q l]; [by apply split_no_sep |].
  rewrite (join_cons [sep] p (q :: l)) by done. cbn [app].
  rewrite split_app_sep by done. by rewrite IH.
Qed.

Lemma occurs_elem (x : uchar) (l s : ustring) : x ∈ l → occurs l s → x ∈ s.
Proof. intros Hx (pre & post & ->). set_solver. Qed.

Lemma occurs_trans (a b c : ustring) : occurs a b → occurs b c → occurs a c.
Proof.
  intros (p1 & q1 & ->) (p2 & q2 & ->). exists (p2 ++ p1), (q1 ++ q2).
  by rewrite <- !app_assoc.
Qed.

Lemma occurs_join (sep f : ustring) (l : list ustring) :
  f ∈ l → occurs f (Str.join sep l).
Proof.
  induction l as [| p l IH]; [by intros H%not_elem_of_nil |].
  destruct l as [| q l].
  - intros ->%list_elem_of_singleton. exists [], []. by rewrite app_nil_r.
  - rewrite (join_cons sep p (q :: l)) by done.
    intros [-> | Hf]%elem_of_cons.
    + by exists [], (sep ++ Str.join sep (q :: l)).
    + destruct (IH Hf) as (pre & post & ->).
      exists (p ++ sep ++ pre), post. by rewrite <- !app_assoc.
Qed.

(** A sub-line is a piece of the line and is not empty. *)
Lemma splitline_sublines (line l : ustring) :
  l ∈ splitline line → l ≠ [] ∧ occurs l line.
Proof.
  revert l. pattern line, (splitline line). apply splitline_rect; clear line.
  - by intros l H%not_elem_of_nil.
  - intros L Hne _ l Hl. apply list_elem_of_singleton in Hl as ->.
    split; [done |]. exists [], []. by rewrite app_nil_r.
  - intros L Hge _ l Hl. apply list_elem_of_singleton in Hl as ->.
    split; [intros ->; simpl in Hge; lia |]. exists [], []. by rewrite app_nil_r.
  - intros L k Hge Hk _ IH l [-> | Hin]%elem_of_cons.
    + split.
      * apply lookup_lt_Some in Hk. intros Hnil.
        apply (f_equal length) in Hnil. rewrite length_take in Hnil.
        cbn [length] in Hnil. lia.
      * exists [], (drop (60 + k) L). by rewrite take_drop.
    + destruct (IH l Hin) as [Hne Hocc]. split; [done |].
      apply (occurs_trans _ _ _ Hocc).
      exists (take (60 + k + 1) L), []. by rewrite app_nil_r, take_drop.
Qed.

Lemma normalize_normal (text : ustring) : normal_text (normalize text).
Proof.
  destruct (replace_whitespace_blank_free text) as [Hnl Htab].
  by apply sentence_breaks_normal, collapse_spaces_normal.
Qed.

Lemma elem_of_concat_inv {A} (x : A) (ls : list (list A)) :
  x ∈ concat ls → ∃ l, x ∈ l ∧ l ∈ ls.
Proof.
  induction ls as [| l ls IH]; cbn [concat]; [by intros H%not_elem_of_nil |].
  intros [Hx | Hx]%elem_of_app.
  - exists l. split; [done | apply list_elem_of_here].
  - destruct (IH Hx) as (l' & Hl' & Hin). exists l'.
    split; [done | by apply list_elem_of_further].
Qed.

Lemma wrap_lines_elem (text l : ustring) :
  l ∈ wrap_lines text →
  ∃ field, field ∈ Str.split nl text ∧ l ∈ splitline field.
Proof.
  rewrite wrap_lines_flat. intros (ls & Hl & Hls)%elem_of_concat_inv.
  apply list_elem_of_fmap in Hls as (field & -> & Hfield). by exists field.
Qed.

(** X11: every line of the output is a piece of the normalised text,
    is not empty, and has no newline, no tab and no two spaces in a
    row. *)
Theorem outlines_clean (root : Element) (l : ustring) :
  l ∈ outlines_of root →
  l ≠ [] ∧ (nl ∉ l) ∧ (tab ∉ l) ∧ ¬ occurs [sp; sp] l
  ∧ occurs l (normalize (flatten root)).
Proof.
  unfold outlines_of. intros (field & Hfield & Hl)%wrap_lines_elem.
  destruct (splitline_sublines _ _ Hl) as [Hne Hocc].
  pose proof (split_fields _ _ _ Hfield) as Hnl.
  pose proof (occurs_join [nl] _ _ Hfield) as Hocc'. rewrite join_split in Hocc'.
  pose proof (occurs_trans _ _ _ Hocc Hocc') as Hpiece.
  destruct (normalize_normal (flatten root)) as (Htab & Hsp & _).
  split; [done |]. split; [| split; [| split; [| done]]].
  - intros Hin. by apply Hnl, (occurs_elem nl l).
  - intros Hin. by apply Htab, (occurs_elem tab l).
  - intros Hin. by apply Hsp, (occurs_trans _ l).
Qed.

Lemma outlines_clean_witness :
  u "X YZ" ∈ outlines_of doc_XYZ ∧
  u "X YZ" ≠ [] ∧ (nl ∉ u "X YZ") ∧ (tab ∉ u "X YZ")
  ∧ ¬ occurs [sp; sp] (u "X YZ")
  ∧ occurs (u "X YZ") (normalize (flatten doc_XYZ)).
Proof.
  assert (u "X YZ" ∈ outlines_of doc_XYZ) as Hin.
  { assert (outlines_of doc_XYZ = [u "X YZ"]) as -> by (vm_compute; reflexivity).
    apply list_elem_of_here. }
  split; [exact Hin |].
  exact (outlines_clean doc_XYZ (u "X YZ") Hin).
Defined.

(** X12: the written text, split at its newlines, is the list of the
    output lines again: each line of the output file is one sub-line. *)
Theorem outlines_round_trip (root : Element) :
  outlines_of root ≠ [] →
  Str.split nl (Str.join [nl] (outlines_of root)) = outlines_of root.
Proof.
  intros Hne. apply split_join; [done |]. apply Forall_forall.
  intros l Hl. unfold outlines_of in Hl.
  apply wrap_lines_elem in Hl as (field & Hfield & Hl).
  destruct (splitline_sublines _ _ Hl) as [_ Hocc].
  intros Hin. apply (split_fields _ _ _ Hfield). by apply (occurs_elem nl l).
Qed.

Lemma outlines_round_trip_witness :
  outlines_of doc_XYZ ≠ [] ∧
  Str.split nl (Str.join [nl] (outlines_of doc_XYZ)) = outlines_of doc_XYZ.
Proof.
  assert (outlines_of doc_XYZ ≠ []) as Hne by (vm_compute; congruence).
  split; [exact Hne |].
  exact (outlines_round_trip doc_XYZ Hne).
Defined.

Lemma filter_join (P : uchar → Prop) `{!∀ c, Decision (P c)}
    (sep : ustring) (l : list ustring) :
  filter P sep = [] → filter P (Str.join sep l) = filter P (concat l).
Proof.
  intros Hsep. induction l as [| p l IH]; [done |].
  destruct l as [| q l]; [cbn; by rewrite app_nil_r |].
  rewrite (join_cons sep p (q :: l)) by done.
  cbn [concat] in *. by rewrite !filter_app, Hsep, IH, filter_app.
Qed.

Lemma splitline_filter (P : uchar → Prop) `{!∀ c, Decision (P c)}
    (line : ustring) :
  ¬ P sp → filter P (concat (splitline line)) = filter P line.
Proof.
  intros Hsp. pattern line, (splitline line). apply splitline_rect; clear line.
  - done.
  - intros L _ _. cbn [concat]. by rewrite app_nil_r.
  - intros L _ _. cbn [concat]. by rewrite app_nil_r.
  - intros L k _ Hk _ IH. cbn [concat]. rewrite filter_app, IH.
    pose proof (take_drop_middle L (60 + k) sp Hk) as Hmid.
    replace (S (60 + k)) with (60 + k + 1)%nat in Hmid by lia.
    rewrite <- Hmid at 3. rewrite filter_app. f_equal.
    by rewrite filter_cons_False.
Qed.

(** X13: from the flattened text to the written text only white space
    changes: the characters that are not a space, tab or newline are
    written unchanged, each once and in order. *)
Theorem pipeline_keeps_words (root : Element) :
  words_of (Str.join [nl] (outlines_of root)) = words_of (flatten root).
Proof.
  unfold outlines_of.
  transitivity (words_of (normalize (flatten root))).
  2: { unfold normalize.
       by rewrite words_of_sentence_breaks, words_of_collapse_spaces,
         words_of_replace_whitespace. }
  generalize (normalize (flatten root)). intros t.
  unfold words_of. rewrite filter_join by done. rewrite wrap_lines_flat.
  rewrite <- (join_split nl t) at 2. rewrite filter_join by done.
  induction (Str.split nl t) as [| f fs IH]; [done |].
  cbn [map concat]. rewrite concat_app, !filter_app, IH. f_equal.
  apply splitline_filter. intros H. apply H. by left.
Qed.

(** ** The command line *)

(** X14: the usage text is printed exactly when there are more than
    three entries in [sys.argv], and the dispatch fails, on
    [sys.argv[1]], exactly when [sys.argv] is empty. *)
Theorem main_usage_iff (splitext : string → string * string)
    (argv : list string) :
  (main splitext argv = Some PrintUsage ↔ (3 < length argv)%nat)
  ∧ (main splitext argv = None ↔ argv = []).
Proof.
  destruct argv as [| a [| b [| c [| d rest]]]];
    try (split; split; intros Hm; (done || (cbn in Hm; lia))).
  unfold main. cbn [length].
  destruct (Z.eqb_spec (Z.of_nat (S (S (S (S (length rest)))))) 1); [lia |].
  destruct (Z.ltb_spec 3 (Z.of_nat (S (S (S (S (length rest))))))); [| lia].
  cbn [orb]. split; split; intros Hm; try done. lia.
Qed.
